(** * go-videoconf: the signalling relay and the session controllers

    A shallow embedding of
      - [server/signalling-server/main.go] (the room directory [sockets] and
        the per-connection handler [wshandler], in both variants the
        repository holds),
      - [server/signalling-server/interfaces] ([Connection], [Message],
        [Socket]),
      - [server/src/controllers/socket.controllers.go] and the session
        controller ([CreateSession], [CreateSocket], [ConnectSession],
        [GetSession], [hashSession]), over the documents of the two
        collections,
      - [server/users-service] (the user controller, its store and
        [getenv]),
    followed by the properties of section 8 of the specification. *)

From stdpp Require Import gmap strings list fin_maps.
From Stdlib Require Import ZArith NArith.
From Stdlib.Strings Require Import Ascii Byte.

(** ** Part I: the relay hub of [main.go] *)

Module Relay.

(** A [*websocket.Conn] is identified by the number the upgrader gave it. *)
Definition conn := nat.

(** [interfaces.Message]. The field [Type] is spelled [Type_]. *)
Record Message := mkMessage {
  Type_ : string;
  UserID : string;
  Description : string;
  Candidate : string;
  To : string
}.

(** [interfaces.Connection]: the socket it wraps. The mutex only orders
    concurrent writers and carries no data. *)
Record Connection := mkConnection { Socket : conn }.

#[global] Instance Message_eq_dec : EqDecision Message.
Proof. solve_decision. Defined.

#[global] Instance Connection_eq_dec : EqDecision Connection.
Proof. solve_decision. Defined.

(** The zero value of [var message interfaces.Message]. *)
Definition zero_message : Message := mkMessage "" "" "" "" "".

(** One JSON text frame as [encoding/json] sees it: a field that is absent
    (or null) in the frame leaves the struct field as it was. *)
Record Frame := mkFrame {
  f_type : option string;
  f_userID : option string;
  f_description : option string;
  f_candidate : option string;
  f_to : option string
}.

(** [conn.ReadJSON(&message)] on a well-formed frame: decoding into the
    variable that the loop reuses. *)
Definition ReadJSON (f : Frame) (message : Message) : Message :=
  {| Type_ := default (Type_ message) (f_type f);
     UserID := default (UserID message) (f_userID f);
     Description := default (Description message) (f_description f);
     Candidate := default (Candidate message) (f_candidate f);
     To := default (To message) (f_to f) |}.

(** What a handler iteration writes to the network. Only writes that
    succeeded are recorded: a failed write delivers nothing. *)
Inductive Output :=
  | Reply (c : conn) (m : Message)
      (* conn.WriteJSON(message) on the handler's own socket *)
  | Forward (user : string) (c : conn) (m : Message).
      (* clients[user].Send(message) *)

#[global] Instance Output_eq_dec : EqDecision Output.
Proof. solve_decision. Defined.

(** The connection an output was written to. *)
Definition receiver (o : Output) : conn :=
  match o with Reply c _ => c | Forward _ c _ => c end.

(** [Socket.WriteJSON(message)] on connection [c], [true] when it returns
    an error: [c] was closed on the server side, or the network says so
    ([fails], chosen by the environment for the current iteration). *)
Definition WriteJSON (closed : gset conn) (fails : conn → bool) (c : conn) : bool :=
  bool_decide (c ∈ closed) || fails c.

(** [Connection.Send]: [WriteJSON] on the socket of the connection, under
    its mutex. *)
Definition Send (closed : gset conn) (fails : conn → bool) (client : Connection) : bool :=
  WriteJSON closed fails (Socket client).

(** The loop state of a [range clients] loop: the member map being mutated,
    the closed connections, the writes done so far. *)
Definition LoopState : Type := gmap string Connection * gset conn * list Output.

(** The body of both [for user, client := range clients] loops.
    [skip user] is the guard [user != message.UserID] (negated);
    [close_on_err] says whether the error branch also runs
    [client.Socket.Close()] (the "disconnect" case does, the default case
    does not). *)
Definition range_body (skip : string → bool) (close_on_err : bool)
    (message : Message) (fails : conn → bool)
    (acc : LoopState) (e : string * Connection) : LoopState :=
  let '(clients, closed, out) := acc in
  let '(user, client) := e in
  if skip user then acc
  else if Send closed fails client
       then (delete user clients,
             if close_on_err then {[Socket client]} ∪ closed else closed,
             out)
       else (clients, closed, out ++ [Forward user (Socket client) message]).

(** [for user, client := range clients { ... }]. Go visits every entry that
    is still in the map once, in an unspecified order; the body only deletes
    the entry it is visiting, so visiting the entries of the map as it was
    on entry is the same thing. The order taken here is the one of
    [map_to_list]; the statements below do not depend on it. *)
Definition range_send (skip : string → bool) (close_on_err : bool)
    (message : Message) (fails : conn → bool)
    (clients : gmap string Connection) (closed : gset conn) : LoopState :=
  foldl (range_body skip close_on_err message fails)
        (clients, closed, []) (map_to_list clients).

(** [if clients[message.UserID] == nil { ... clients[message.UserID] = connection }] *)
Definition register (c : conn) (message : Message)
    (clients : gmap string Connection) : gmap string Connection :=
  match clients !! UserID message with
  | None => <[UserID message := mkConnection c]> clients
  | Some _ => clients
  end.

Definition set_type (t : string) (message : Message) : Message :=
  {| Type_ := t; UserID := UserID message; Description := Description message;
     Candidate := Candidate message; To := To message |}.

(** The result of one loop iteration of [wshandler] after a successful
    read: the member map of the room, the closed connections, the value of
    the variable [message] and the writes. *)
Record Iter := mkIter {
  i_clients : gmap string Connection;
  i_closed : gset conn;
  i_message : Message;
  i_out : list Output
}.

Definition switch_on_type (skip : string → bool) (c : conn) (message : Message)
    (fails : conn → bool) (clients : gmap string Connection)
    (closed : gset conn) : Iter :=
  if decide (Type_ message = "connect") then
    let message' := set_type "session_joined" message in
    if WriteJSON closed fails c
    then mkIter (delete (UserID message') clients) closed message' []
    else mkIter clients closed message' [Reply c message']
  else if decide (Type_ message = "disconnect") then
    let '(clients', closed', out) :=
      range_send skip true message fails clients closed in
    mkIter (delete (UserID message) clients') closed' message out
  else
    let '(clients', closed', out) :=
      range_send skip false message fails clients closed in
    mkIter clients' closed' message out.

(** The body of the [for] loop of [wshandler] (main.go, lines 52-88) once
    [ReadJSON] has filled [message]: registration, then the [switch]. Both
    loops are guarded by [user != message.UserID]. *)
Definition wshandler_iter (c : conn) (message : Message) (fails : conn → bool)
    (clients : gmap string Connection) (closed : gset conn) : Iter :=
  switch_on_type (λ user, bool_decide (user = UserID message))
    c message fails (register c message clients) closed.

(** The same loop body in the second [wshandler] that main.go holds (lines
    220-251): registration and [switch] are the same, and neither loop has
    the guard: [client.Send(message)] runs for every entry. *)
Definition wshandler_iter_unguarded (c : conn) (message : Message)
    (fails : conn → bool) (clients : gmap string Connection)
    (closed : gset conn) : Iter :=
  switch_on_type (λ _, false)
    c message fails (register c message clients) closed.

(** *** The hub: the global [sockets] and the running handlers *)

(** A [wshandler] activation: the path parameter it was started with, its
    variable [message], and whether it is still in its loop. The record is
    kept after the handler returns, so that the room a connection was
    accepted under can still be named. *)
Record Handler := mkHandler {
  h_socket : string;
  h_message : Message;
  h_live : bool
}.

(** [sockets] is the package variable
    [map[string]map[string]*interfaces.Connection]. A handler's local
    [clients] is the inner map [sockets[socket]]: the inner map is made once
    per key, and no statement replaces or removes it, so the local variable
    and [sockets[socket]] name one map object for as long as the handler
    runs. [closed] holds the connections on which [Close] was called. *)
Record Hub := mkHub {
  sockets : gmap string (gmap string Connection);
  closed : gset conn;
  handlers : gmap conn Handler
}.

Definition init : Hub := mkHub ∅ ∅ ∅.

(** [sockets[socket]] as Go reads it: the nil map for an absent key. *)
Definition room (h : Hub) (socket : string) : gmap string Connection :=
  default ∅ (sockets h !! socket).

(** What the environment does to the hub. *)
Inductive Event :=
  | Upgrade (c : conn) (socket : string)
      (* GET /ws/:socket was upgraded to the new connection c *)
  | Read (c : conn) (r : option Frame) (fails : conn → bool).
      (* conn.ReadJSON returned on c: a frame, or an error *)

(** Lines 36-40: the room is created on admission when it is absent. *)
Definition enter_room (socket : string)
    (s : gmap string (gmap string Connection)) : gmap string (gmap string Connection) :=
  match s !! socket with
  | None => <[socket := ∅]> s
  | Some _ => s
  end.

(** One step of the hub. [None]: the event cannot happen in this state (the
    upgrader returns a connection that is new; only a running handler reads;
    a connection closed by the server yields no further frame). An upgrade
    that fails makes [wshandler] return before it touches [sockets], and is
    no event. Each event is taken as a whole: the steps of two handlers are
    interleaved between messages, not inside the handling of one. *)
Definition step (h : Hub) (e : Event) : option (Hub * list Output) :=
  match e with
  | Upgrade c socket =>
      if decide (c ∈ dom (handlers h)) then None
      else Some (mkHub (enter_room socket (sockets h)) (closed h)
                       (<[c := mkHandler socket zero_message true]> (handlers h)),
                 [])
  | Read c r fails =>
      match handlers h !! c with
      | Some hd =>
          if h_live hd then
            match r with
            | None =>
                (* break; the deferred conn.Close() runs *)
                Some (mkHub (sockets h) ({[c]} ∪ closed h)
                            (<[c := mkHandler (h_socket hd) (h_message hd) false]>
                               (handlers h)),
                      [])
            | Some f =>
                if decide (c ∈ closed h) then None
                else
                  let it := wshandler_iter c (ReadJSON f (h_message hd)) fails
                              (room h (h_socket hd)) (closed h) in
                  Some (mkHub (<[h_socket hd := i_clients it]> (sockets h))
                              (i_closed it)
                              (<[c := mkHandler (h_socket hd) (i_message it) true]>
                                 (handlers h)),
                        i_out it)
            end
          else None
      | None => None
      end
  end.

(** A run: the events in order, with every write tagged by the connection
    whose handler made it. *)
Definition sender_of (e : Event) : conn :=
  match e with Upgrade c _ => c | Read c _ _ => c end.

Fixpoint run (evs : list Event) (h : Hub) : option (Hub * list (conn * Output)) :=
  match evs with
  | [] => Some (h, [])
  | e :: evs' =>
      match step h e with
      | None => None
      | Some (h', out) =>
          match run evs' h' with
          | None => None
          | Some (h'', outs) => Some (h'', ((λ o, (sender_of e, o)) <$> out) ++ outs)
          end
      end
  end.

(** The membership probe of a room: the participant ids it holds. *)
Definition members (h : Hub) (socket : string) : gset string :=
  dom (room h socket).

(** An entry of [es] that a [range] loop writes to, with the outcome of the
    write. *)
Definition visited (skip : string → bool) (fails : conn → bool)
    (es : list (string * Connection)) (cl : gset conn)
    (failed : bool) (user : string) (client : Connection) : Prop :=
  (user, client) ∈ es ∧ skip user = false ∧
  Send cl fails client = failed.

(** The room key a connection was accepted under: the path parameter of
    the upgrade request that made it. *)
Definition room_of (h : Hub) (c : conn) : option string :=
  h_socket <$> handlers h !! c.

(** Every entry of a room holds a connection accepted under the key of that
    room. *)
Definition rooms_hold_own_conns (h : Hub) : Prop :=
  ∀ socket clients user client,
    sockets h !! socket = Some clients →
    clients !! user = Some client →
    room_of h (Socket client) = Some socket.

(** The room of a handler is always a key of [sockets]: the map a handler
    holds as [clients] is the one the directory has under its key. *)
Definition handlers_have_rooms (h : Hub) : Prop :=
  ∀ c hd, handlers h !! c = Some hd → is_Some (sockets h !! h_socket hd).

(** *** Scenarios *)

(** A frame that sets the type, the sender and (possibly) the recipient. *)
Definition frame (type user : string) (to : option string) : Frame :=
  mkFrame (Some type) (Some user) None None to.

(** The network never fails. *)
Definition fine : conn → bool := λ _, false.

(** Three participants a, b, c join room r on connections 1, 2, 3. *)
Definition three_joined : list Event :=
  [Upgrade 1 "r"; Upgrade 2 "r"; Upgrade 3 "r";
   Read 1 (Some (frame "connect" "a" None)) fine;
   Read 2 (Some (frame "connect" "b" None)) fine;
   Read 3 (Some (frame "connect" "c" None)) fine].

(** Two participants a, b join room r on connections 1, 2. *)
Definition two_joined : list Event :=
  [Upgrade 1 "r"; Upgrade 2 "r";
   Read 1 (Some (frame "connect" "a" None)) fine;
   Read 2 (Some (frame "connect" "b" None)) fine].

(** The hub after a run from the initial state. *)
Definition hub_after (evs : list Event) : Hub :=
  from_option fst init (run evs init).

(** The writes of the last event of a run. *)
Definition writes_of (evs : list Event) (e : Event) : option (list Output) :=
  match run evs init with
  | Some (h, _) => snd <$> step h e
  | None => None
  end.

(** Rooms r and s, two participants in each, with the admissions and the
    messages of the two rooms interleaved. *)
Definition two_rooms : list Event :=
  [Upgrade 1 "r"; Upgrade 2 "s"; Upgrade 3 "r"; Upgrade 4 "s";
   Read 1 (Some (frame "connect" "a" None)) fine;
   Read 2 (Some (frame "connect" "a" None)) fine;
   Read 3 (Some (frame "connect" "b" None)) fine;
   Read 4 (Some (frame "connect" "b" None)) fine;
   Read 1 (Some (frame "offer" "a" None)) fine;
   Read 4 (Some (frame "answer" "b" None)) fine].

Definition two_rooms_writes : list (conn * Output) :=
  [(1, Reply 1 (mkMessage "session_joined" "a" "" "" ""));
   (2, Reply 2 (mkMessage "session_joined" "a" "" "" ""));
   (3, Reply 3 (mkMessage "session_joined" "b" "" "" ""));
   (4, Reply 4 (mkMessage "session_joined" "b" "" "" ""));
   (1, Forward "b" 3 (mkMessage "offer" "a" "" "" ""));
   (4, Forward "a" 2 (mkMessage "answer" "b" "" "" ""))].

End Relay.

(** ** Part II: the session controllers *)

(** *** [encoding/hex] *)

Module Hex.

(** [hextable]: the digit of a value below 16. *)
Definition digit (n : N) : ascii :=
  match n with
  | 0 => "0" | 1 => "1" | 2 => "2" | 3 => "3" | 4 => "4" | 5 => "5"
  | 6 => "6" | 7 => "7" | 8 => "8" | 9 => "9" | 10 => "a" | 11 => "b"
  | 12 => "c" | 13 => "d" | 14 => "e" | _ => "f"
  end%N%char.

(** [fromHexChar]: digits and letters of both cases. *)
Definition fromHexChar (a : ascii) : option N :=
  let n := N_of_ascii a in
  if (48 <=? n)%N && (n <=? 57)%N then Some (n - 48)%N
  else if (97 <=? n)%N && (n <=? 102)%N then Some (n - 87)%N
  else if (65 <=? n)%N && (n <=? 70)%N then Some (n - 55)%N
  else None.

(** [hex.EncodeToString]. *)
Fixpoint EncodeToString (src : list Byte.byte) : string :=
  match src with
  | [] => ""
  | b :: src' =>
      String (digit (Byte.to_N b / 16)) (String (digit (Byte.to_N b mod 16))
        (EncodeToString src'))
  end.

(** [hex.DecodeString]: [None] on an odd length or a character that is not
    a digit. *)
Fixpoint DecodeString (s : string) : option (list Byte.byte) :=
  match s with
  | "" => Some []
  | String hi (String lo s') =>
      match fromHexChar hi, fromHexChar lo, DecodeString s' with
      | Some h, Some l, Some bs =>
          match Byte.of_N (h * 16 + l) with
          | Some b => Some (b :: bs)
          | None => None
          end
      | _, _, _ => None
      end
  | String _ "" => None
  end.

End Hex.

(** *** [crypto/sha1] *)

Module Sha1.

Local Open Scope Z_scope.

Definition mask32 : Z := 0xFFFFFFFF.

(** Addition of [uint32]. *)
Definition add32 (x y : Z) : Z := Z.land (x + y) mask32.

(** [bits.RotateLeft32]. *)
Definition rotl32 (x : Z) (n : Z) : Z :=
  Z.land (Z.lor (Z.shiftl x n) (Z.shiftr x (32 - n))) mask32.

(** [^x] on [uint32]. *)
Definition not32 (x : Z) : Z := Z.lxor x mask32.

(** The [k] low bytes of [n], most significant first. *)
Fixpoint be_bytes (k : nat) (n : Z) : list Z :=
  match k with
  | O => []
  | S k' => be_bytes k' (Z.shiftr n 8) ++ [Z.land n 0xFF]
  end.

(** The padding of [checkSum]: 0x80, zeros up to 56 modulo 64, and the
    length in bits on 8 bytes. *)
Definition pad (msg : list Z) : list Z :=
  let len := Z.of_nat (length msg) in
  msg ++ [0x80] ++ replicate (Z.to_nat ((55 - len) mod 64)) 0
      ++ be_bytes 8 (8 * len).

(** Big-endian 32-bit words of a byte sequence. *)
Fixpoint words (fuel : nat) (bs : list Z) : list Z :=
  match fuel, bs with
  | S fuel', b0 :: b1 :: b2 :: b3 :: bs' =>
      Z.lor (Z.shiftl b0 24) (Z.lor (Z.shiftl b1 16) (Z.lor (Z.shiftl b2 8) b3))
      :: words fuel' bs'
  | _, _ => []
  end.

(** The message schedule: [w] holds W_0 .. W_(t-1), and [n] more words are
    appended, W_t = rotl1 (W_(t-3) xor W_(t-8) xor W_(t-14) xor W_(t-16)). *)
Fixpoint schedule (n : nat) (w : list Z) : list Z :=
  match n with
  | O => w
  | S n' =>
      let t := length w in
      let g i := nth (t - i) w 0 in
      schedule n'
        (w ++ [rotl32 (Z.lxor (Z.lxor (g 3%nat) (g 8%nat))
                              (Z.lxor (g 14%nat) (g 16%nat))) 1])
  end.

Definition Digest : Type := Z * Z * Z * Z * Z.

Definition init : Digest :=
  (0x67452301, 0xEFCDAB89, 0x98BADCFE, 0x10325476, 0xC3D2E1F0).

(** One of the 80 rounds of [blockGeneric]. *)
Definition round (t : nat) (wt : Z) (st : Digest) : Digest :=
  let '(a, b, c, d, e) := st in
  let '(f, k) :=
    if (t <? 20)%nat
    then (Z.lor (Z.land b c) (Z.land (not32 b) d), 0x5A827999)
    else if (t <? 40)%nat then (Z.lxor (Z.lxor b c) d, 0x6ED9EBA1)
    else if (t <? 60)%nat
    then (Z.lor (Z.lor (Z.land b c) (Z.land b d)) (Z.land c d), 0x8F1BBCDC)
    else (Z.lxor (Z.lxor b c) d, 0xCA62C1D6) in
  (add32 (add32 (add32 (add32 (rotl32 a 5) f) e) wt) k, a, rotl32 b 30, c, d).

Fixpoint rounds (t : nat) (w : list Z) (st : Digest) : Digest :=
  match w with
  | [] => st
  | wt :: w' => rounds (S t) w' (round t wt st)
  end.

(** One 64-byte block. *)
Definition block (h : Digest) (chunk : list Z) : Digest :=
  let '(h0, h1, h2, h3, h4) := h in
  let '(a, b, c, d, e) := rounds 0 (schedule 64 (words 16 chunk)) h in
  (add32 h0 a, add32 h1 b, add32 h2 c, add32 h3 d, add32 h4 e).

Fixpoint blocks (fuel : nat) (h : Digest) (bs : list Z) : Digest :=
  match fuel, bs with
  | S fuel', _ :: _ => blocks fuel' (block h (take 64 bs)) (drop 64 bs)
  | _, _ => h
  end.

Definition byte_of_Z (z : Z) : Byte.byte :=
  default Byte.x00 (Byte.of_N (Z.to_N z)).

(** [sha1.New()], [Write(data)], [Sum(nil)]: the 20 bytes of the digest. *)
Definition Sum (data : list Z) : list Byte.byte :=
  let p := pad data in
  let '(h0, h1, h2, h3, h4) := blocks (length p) init p in
  byte_of_Z <$> (be_bytes 4 h0 ++ be_bytes 4 h1 ++ be_bytes 4 h2
                   ++ be_bytes 4 h3 ++ be_bytes 4 h4).

(** [[]byte(str)] *)
Definition bytes_of_string (s : string) : list Z :=
  (λ a, Z.of_N (N_of_ascii a)) <$> String.list_ascii_of_string s.

End Sha1.
(** *** The controllers *)

Module Controllers.

(** [primitive.ObjectID], a [[12]byte]: every value the driver makes has 12
    bytes. *)
Definition ObjectID : Type := list Byte.byte.

#[global] Instance byte_eq_dec : EqDecision Byte.byte := Byte.byte_eq_dec.

(** [ObjectID.Hex] *)
Definition Hex (id : ObjectID) : string := Hex.EncodeToString id.

(** [primitive.ObjectIDFromHex]: [ErrInvalidHex] unless the string has 24
    characters, then the error of [hex.DecodeString], if any. *)
Definition ObjectIDFromHex (s : string) : option ObjectID :=
  if decide (String.length s = 24) then Hex.DecodeString s else None.

(** Modelled from the spec: the struct [interfaces.Session] is not under
    src/; section 3 gives a session a host, a title and a password (the
    hash, once stored), and the controllers read [Host], [Title] and
    [Password]. *)
Record Session := mkSession {
  Host : string;
  Title : string;
  Password : string
}.

(** [interfaces.Socket]. The three fields carry no [bson] tag. *)
Record Socket := mkSocket {
  SessionID : string;
  HashedURL : string;
  SocketURL : string
}.

#[global] Instance Session_eq_dec : EqDecision Session.
Proof. solve_decision. Defined.

#[global] Instance Socket_eq_dec : EqDecision Socket.
Proof. solve_decision. Defined.

(** The zero value of [var socket interfaces.Socket]. *)
Definition zero_socket : Socket := mkSocket "" "" "".

(** Modelled from the spec: [utils.HashPassword] and
    [utils.ComparePasswords] are not under src/. Section 2 makes them the
    Credential Store, which hashes and verifies room passwords and has no
    state; section 5 says both are pure. [ComparePasswords hash password]
    takes the stored hash first, as the call in [ConnectSession] does. *)
Class CredentialStore := {
  HashPassword : string → string;
  ComparePasswords : string → string → bool
}.

(** *** Documents of the collection "sockets" *)

(** A document as the store keeps it: its elements with a string value,
    each under its key, in the order of the document. (The [_id] the driver
    adds on insert is no string and no handler reads it; it is left out.) *)
Definition Document : Type := list (string * string).

(** The value a document has under a key. Keys are compared byte by
    byte. *)
Definition element (key : string) (doc : Document) : option string :=
  snd <$> List.find (λ e, bool_decide (e.1 = key)) doc.

(** [strings.ToLower] on the letters A to Z. *)
Definition lower (a : ascii) : ascii :=
  let n := N_of_ascii a in
  if ((65 <=? n) && (n <=? 90))%N then ascii_of_N (n + 32) else a.

Fixpoint ToLower (s : string) : string :=
  match s with
  | EmptyString => EmptyString
  | String a s' => String (lower a) (ToLower s')
  end.

(** The keys under which the struct codec of the driver knows the fields of
    [interfaces.Socket]: a field without a [bson] tag goes by its name in
    lower case. *)
Definition key_SessionID : string := ToLower "SessionID".
Definition key_HashedURL : string := ToLower "HashedURL".
Definition key_SocketURL : string := ToLower "SocketURL".

(** The document [collection.InsertOne(ctx, socket)] stores for a
    [Socket]. *)
Definition Marshal (socket : Socket) : Document :=
  [(key_SessionID, SessionID socket);
   (key_HashedURL, HashedURL socket);
   (key_SocketURL, SocketURL socket)].

(** One element read into the struct: the codec looks the key of the
    element up among the keys of the fields, first as it is and then in
    lower case, and skips an element that names no field. *)
Definition decode_element (socket : Socket) (e : string * string) : Socket :=
  let known := [key_SessionID; key_HashedURL; key_SocketURL] in
  let name := if bool_decide (e.1 ∈ known) then e.1 else ToLower e.1 in
  if bool_decide (name = key_SessionID)
  then mkSocket e.2 (HashedURL socket) (SocketURL socket)
  else if bool_decide (name = key_HashedURL)
  then mkSocket (SessionID socket) e.2 (SocketURL socket)
  else if bool_decide (name = key_SocketURL)
  then mkSocket (SessionID socket) (HashedURL socket) e.2
  else socket.

(** [result.Decode(&socket)] *)
Definition Decode (doc : Document) (socket : Socket) : Socket :=
  foldl decode_element socket doc.

(** The database "vidchat": the collection "sessions", each document under
    the [_id] the store assigned, and the documents of the collection
    "sockets". A session is looked up by its [_id], which the store keeps
    unique; for "sockets" the list gives the order in which [FindOne] goes
    through the documents. *)
Record Db := mkDb {
  sessions : list (ObjectID * Session);
  sockets : list Document
}.

Definition empty_db : Db := mkDb [] [].

(** [collection.FindOne(ctx, bson.M{"hashedUrl": url})] on "sockets": the
    first document that has the value [url] under the key "hashedUrl";
    [None] is [ErrNoDocuments]. The handlers test [result.Err() != nil]
    and nothing else. *)
Definition FindOne_document (db : Db) (url : string) : option Document :=
  List.find (λ doc, bool_decide (element "hashedUrl" doc = Some url)) (sockets db).

(** The same lookup followed by [Decode] into a zero [Socket]. *)
Definition FindOne_socket (db : Db) (url : string) : option Socket :=
  (λ doc, Decode doc zero_socket) <$> FindOne_document db url.

(** [collection.FindOne(ctx, bson.M{"_id": objectID})] on "sessions". *)
Definition FindOne_session (db : Db) (objectID : ObjectID) : option Session :=
  snd <$> List.find (λ p, bool_decide (p.1 = objectID)) (sessions db).

(** [gin.H] with string values. *)
Definition H : Type := list (string * string).

(** The response writer of gin: the status (200 until set), whether the
    header has gone out, and the JSON values written to the body. *)
Record ResponseWriter := mkWriter {
  status : nat;
  written : bool;
  body : list H
}.

Definition new_writer : ResponseWriter := mkWriter 200 false [].

(** [responseWriter.WriteHeader]: a status that differs from the current
    one is taken unless the header has already been written. *)
Definition WriteHeader (code : nat) (w : ResponseWriter) : ResponseWriter :=
  if (0 <? code) && negb (status w =? code)
  then if written w then w else mkWriter code (written w) (body w)
  else w.

(** [ctx.Status(code)] *)
Definition Status (code : nat) (w : ResponseWriter) : ResponseWriter :=
  WriteHeader code w.

(** [ctx.JSON(code, obj)]: sets the status, then writes the value. *)
Definition JSON (code : nat) (obj : H) (w : ResponseWriter) : ResponseWriter :=
  let w' := WriteHeader code w in
  mkWriter (status w') true (body w' ++ [obj]).

(** What the client receives: the status code and the body. *)
Definition wire (w : ResponseWriter) : nat * list H := (status w, body w).

(** The outcome of [ctx.ShouldBindJSON(&session)]. *)
Inductive Body :=
  | BindError (err : string)
  | Bound (session : Session).

(** A handler returns or panics. *)
Inductive Outcome (A : Type) :=
  | Panic
  | Done (a : A).
Arguments Panic {A}.
Arguments Done {A} a.

Definition StatusOK : nat := 200.
Definition StatusBadRequest : nat := 400.

(** [hashSession]: the SHA-1 of the string, in hexadecimal. *)
Definition hashSession (str : string) : string :=
  Hex.EncodeToString (Sha1.Sum (Sha1.bytes_of_string str)).

(** [CreateSocket(session, ctx, id)]: the new database and the returned
    [hashURL]. [accepted] says whether the store takes the insert. Line 89
    drops both results of [InsertOne], so [hashURL] is returned either
    way. *)
Definition CreateSocket (accepted : bool) (session : Session) (id : string) (db : Db)
    : Db * string :=
  let hashURL := hashSession (Host session +:+ Title session) in
  let socketURL := hashSession (Host session +:+ Password session) in
  let socket := mkSocket id hashURL socketURL in
  (if accepted then mkDb (sessions db) (sockets db ++ [Marshal socket]) else db,
   hashURL).

Section handlers.
Context {store : CredentialStore}.

(** [CreateSession]. [inserted] is what [InsertOne] on "sessions" does:
    [Some oid] stores the session under the generated [_id], [None] is an
    error of the store; an [_id] that is taken is an error as well. The
    error is dropped, the result is nil, and [result.InsertedID] panics.
    [accepted] is passed on to [CreateSocket]. *)
Definition CreateSession (inserted : option ObjectID) (accepted : bool)
    (body : Body) (db : Db) : Outcome (Db * ResponseWriter) :=
  match body with
  | BindError err =>
      Done (db, JSON StatusBadRequest [("error", err)] new_writer)
  | Bound session =>
      let session :=
        mkSession (Host session) (Title session) (HashPassword (Password session)) in
      match inserted with
      | None => Panic
      | Some oid =>
          if decide (oid ∈ (sessions db).*1) then Panic
          else
            let db1 := mkDb (sessions db ++ [(oid, session)]) (sockets db) in
            let insertedID := Hex oid in
            let '(db2, url) := CreateSocket accepted session insertedID db1 in
            Done (db2, JSON StatusOK [("socket", url)] new_writer)
      end
  end.

(** [ConnectSession], with [url] the path parameter. After the
    "Socket connection not found." answer there is no [return]: the
    handler goes on with the zero [socket]. *)
Definition ConnectSession (url : string) (body : Body) (db : Db) : ResponseWriter :=
  let w := new_writer in
  let result := FindOne_document db url in
  match body with
  | BindError err => JSON StatusBadRequest [("error", err)] w
  | Bound input =>
      let w :=
        match result with
        | None => JSON StatusBadRequest [("error", "Socket connection not found.")] w
        | Some _ => w
        end in
      let socket :=
        match result with
        | None => zero_socket
        | Some doc => Decode doc zero_socket
        end in
      match ObjectIDFromHex (SessionID socket) with
      | None => JSON StatusBadRequest [("error", "Session not found.")] w
      | Some objectID =>
          match FindOne_session db objectID with
          | None => JSON StatusBadRequest [("error", "Session not found.")] w
          | Some session =>
              if negb (ComparePasswords (Password session) (Password input))
              then JSON StatusBadRequest [("error", "Invalid password.")] w
              else JSON StatusOK
                     [("title", Title session); ("socket", SocketURL socket)] w
          end
      end
  end.

End handlers.

(** [GetSession]. [query] is [ctx.Request.URL.Query()], a
    [map[string][]string]: an absent key reads as the nil slice, and
    indexing it at 0 panics. *)
Definition GetSession (query : gmap string (list string)) (db : Db)
    : Outcome ResponseWriter :=
  match default [] (query !! "url") with
  | [] => Panic
  | id :: _ =>
      match FindOne_document db id with
      | None =>
          Done (JSON StatusBadRequest
                  [("error", "Socket connection not found.")] new_writer)
      | Some _ => Done (Status StatusOK new_writer)
      end
  end.

(** The session a socket record refers to, as [ConnectSession] looks it
    up. *)
Definition session_of (db : Db) (socket : Socket) : option Session :=
  match ObjectIDFromHex (SessionID socket) with
  | Some objectID => FindOne_session db objectID
  | None => None
  end.

(** The databases that create-session calls build from the empty one,
    whatever the store does on each insert. *)
Inductive reachable {store : CredentialStore} : Db → Prop :=
  | reachable_empty : reachable empty_db
  | reachable_create db inserted accepted body db' w :
      reachable db →
      (∀ oid, inserted = Some oid → length oid = 12) →
      CreateSession inserted accepted body db = Done (db', w) →
      reachable db'.

(** A credential store to run the handlers on: the hash is the password
    behind a prefix. It stands in for the missing [utils] package in the
    examples only. *)
Definition prefix_store : CredentialStore :=
  {| HashPassword := λ p, "hash:" +:+ p;
     ComparePasswords := λ h p, bool_decide (h = "hash:" +:+ p) |}.

(** The handle and the target [CreateSocket] derives for a stored
    session. *)
Definition handle_of (session : Session) : string :=
  hashSession (Host session +:+ Title session).

Definition target_of (session : Session) : string :=
  hashSession (Host session +:+ Password session).

(** The document [CreateSocket] writes for the session stored under
    [p.1]. *)
Definition written_for (p : ObjectID * Session) : Document :=
  Marshal (mkSocket (Hex p.1) (handle_of p.2) (target_of p.2)).

(** The state of the two collections after any number of calls: the ids of
    the sessions are pairwise distinct and have 12 bytes, and every socket
    document is the one written for a stored session. *)
Definition consistent (db : Db) : Prop :=
  NoDup (sessions db).*1 ∧
  (∀ p, p ∈ sessions db → length p.1 = 12) ∧
  (∀ doc, doc ∈ sockets db → ∃ p, p ∈ sessions db ∧ doc = written_for p).

(** The session as [CreateSession] stores it. *)
Definition stored {store : CredentialStore} (session : Session) : Session :=
  mkSession (Host session) (Title session) (HashPassword (Password session)).

(** The database after a successful call: the session, and the socket
    document when the store took it. *)
Definition CreateSocket_after (accepted : bool) (oid : ObjectID) (s : Session)
    (db : Db) : Db :=
  mkDb (sessions db ++ [(oid, s)])
       (if accepted then sockets db ++ [written_for (oid, s)] else sockets db).

(** The bodies [ConnectSession] answers with. *)
Definition not_found : list H :=
  [[("error", "Socket connection not found.")]; [("error", "Session not found.")]].

Definition invalid_password : list H := [[("error", "Invalid password.")]].

Definition joined (session : Session) (socket : Socket) : list H :=
  [[("title", Title session); ("socket", SocketURL socket)]].

(** A socket document is stored for the handle [url]: it has [url] under
    the key [CreateSocket] writes the handle under. *)
Definition stored_handle (db : Db) (url : string) : Prop :=
  ∃ doc, doc ∈ sockets db ∧ element key_HashedURL doc = Some url.

(** *** Scenarios *)

(** The end-to-end scenario of section 8: host h1 creates "Standup" with
    password p1, on [prefix_store]; then the same host creates a session
    with the same title and another password. *)
Definition oid1 : ObjectID :=
  [x00; x00; x00; x00; x00; x00; x00; x00; x00; x00; x00; x01]%byte.

Definition oid2 : ObjectID :=
  [x00; x00; x00; x00; x00; x00; x00; x00; x00; x00; x00; x02]%byte.

Definition db_of (o : Outcome (Db * ResponseWriter)) : Db :=
  match o with Done (db, _) => db | Panic => empty_db end.

Definition standup_db : Db :=
  db_of (CreateSession (store := prefix_store) (Some oid1) true
           (Bound (mkSession "h1" "Standup" "p1")) empty_db).

Definition standup_twice_db : Db :=
  db_of (CreateSession (store := prefix_store) (Some oid2) true
           (Bound (mkSession "h1" "Standup" "p2")) standup_db).

(** After "Standup", host h1 creates "Retro" with password p2. *)
Definition standup_retro_db : Db :=
  db_of (CreateSession (store := prefix_store) (Some oid2) true
           (Bound (mkSession "h1" "Retro" "p2")) standup_db).

(** The handle of "Standup": [hashSession "h1Standup"]. *)
Definition standup_handle : string := "885e176e42ec20f3cd81d7c30bf552eb4b06e684".

(** A join request with this password. *)
Definition password (p : string) : Body := Bound (mkSession "" "" p).

(** A database in which the socket document of "Standup" has the keys as
    the filters of the handlers spell them. No call of [CreateSocket] writes
    such a document. *)
Definition camel_db : Db :=
  mkDb [(oid1, mkSession "h1" "Standup" "hash:p1")]
       [[("sessionId", "000000000000000000000001");
         ("hashedUrl", standup_handle);
         ("socketUrl", "833a397a21b43ef0fb6a3f8045e88a8367055e76")]].

End Controllers.

(** ** Part II-b: further definitions *)

(** *** Of the relay loops *)

Module RelayWrites.
Import Relay.

(** The entries that a loop with guard [skip], started with the closed
    connections [cl], writes to with success. *)
Definition served (skip : string → bool) (fails : conn → bool) (cl : gset conn)
    (e : string * Connection) : bool :=
  negb (skip e.1) && negb (Send cl fails e.2).

(** The write that forwards [message] to an entry. *)
Definition forward_to (message : Message) (e : string * Connection) : Output :=
  Forward e.1 (Socket e.2) message.

(** The participant id a forward is addressed to. *)
Definition addressee (o : Output) : string :=
  match o with Reply _ _ => "" | Forward user _ _ => user end.

End RelayWrites.

(** *** The hub over either handler *)

Module Hubs.
Import Relay.

(** The loop body of a [wshandler]: [wshandler_iter] or
    [wshandler_iter_unguarded]. *)
Definition IterFn : Type :=
  conn → Message → (conn → bool) → gmap string Connection → gset conn → Iter.

(** [step], with the loop body as a parameter: the hub as it runs under the
    first [wshandler] ([step_with wshandler_iter] is [step]) or under the
    second. *)
Definition step_with (iter : IterFn) (h : Hub) (e : Event) : option (Hub * list Output) :=
  match e with
  | Upgrade c socket =>
      if decide (c ∈ dom (handlers h)) then None
      else Some (mkHub (enter_room socket (sockets h)) (closed h)
                       (<[c := mkHandler socket zero_message true]> (handlers h)),
                 [])
  | Read c r fails =>
      match handlers h !! c with
      | Some hd =>
          if h_live hd then
            match r with
            | None =>
                Some (mkHub (sockets h) ({[c]} ∪ closed h)
                            (<[c := mkHandler (h_socket hd) (h_message hd) false]>
                               (handlers h)),
                      [])
            | Some f =>
                if decide (c ∈ closed h) then None
                else
                  let it := iter c (ReadJSON f (h_message hd)) fails
                              (room h (h_socket hd)) (closed h) in
                  Some (mkHub (<[h_socket hd := i_clients it]> (sockets h))
                              (i_closed it)
                              (<[c := mkHandler (h_socket hd) (i_message it) true]>
                                 (handlers h)),
                        i_out it)
            end
          else None
      | None => None
      end
  end.

Fixpoint run_with (iter : IterFn) (evs : list Event) (h : Hub)
    : option (Hub * list (conn * Output)) :=
  match evs with
  | [] => Some (h, [])
  | e :: evs' =>
      match step_with iter h e with
      | None => None
      | Some (h', out) =>
          match run_with iter evs' h' with
          | None => None
          | Some (h'', outs) => Some (h'', ((λ o, (sender_of e, o)) <$> out) ++ outs)
          end
      end
  end.

End Hubs.

(** *** The admission of [wshandler], statement by statement *)

Module Race.

(** A map value of Go is a reference to a map object; [loc] names the
    object. Two variables that hold one [loc] see each other's writes, two
    that hold different ones do not. *)
Definition loc := nat.

(** Where a handler stands: before one of the three statements of lines
    36-40, in its [for] loop with the local [clients] it read at line 40
    ([None] is the nil map), or past its return. *)
Inductive Pc :=
  | AtTest
      (* line 36: if sockets[socket] == nil *)
  | AtMake
      (* line 37: sockets[socket] = make(map[string]*interfaces.Connection) *)
  | AtRead
      (* line 40: clients := sockets[socket] *)
  | InLoop (clients : option loc)
  | Returned.

(** A [wshandler] activation: its path parameter, where it stands, and its
    variable [message]. *)
Record Worker := mkWorker {
  w_socket : string;
  w_pc : Pc;
  w_message : Relay.Message
}.

(** The package variable [sockets], which holds references; the map
    objects made so far; the connections closed; the handlers. Nothing in
    main.go locks [sockets] or a member map: the only mutex is the one in
    [Connection.Send], around the write to one socket. *)
Record Hub := mkHub {
  sockets : gmap string loc;
  maps : gmap loc (gmap string Relay.Connection);
  closed : gset Relay.conn;
  workers : gmap Relay.conn Worker
}.

Definition init : Hub := mkHub ∅ ∅ ∅ ∅.

(** What the scheduler and the network do. *)
Inductive Event :=
  | Upgrade (c : Relay.conn) (socket : string)
      (* the request was upgraded to the new connection c *)
  | Line (c : Relay.conn)
      (* the handler of c runs its next statement of lines 36-40 *)
  | Read (c : Relay.conn) (r : option Relay.Frame) (fails : Relay.conn → bool).
      (* conn.ReadJSON returned on c, and the handler runs the loop body *)

Definition set_pc (c : Relay.conn) (w : Worker) (pc : Pc) (h : Hub) : Hub :=
  mkHub (sockets h) (maps h) (closed h)
        (<[c := mkWorker (w_socket w) pc (w_message w)]> (workers h)).

(** [make(map[string]*interfaces.Connection)]: a new, empty map object. *)
Definition make (h : Hub) : loc := size (maps h).

(** One step. [None]: the event cannot happen in this state (as in
    [Relay.step]; and a handler that holds the nil map panics at line 55,
    where it assigns to an entry). The handling of one message is still
    taken as a whole. *)
Definition step (h : Hub) (e : Event) : option (Hub * list Relay.Output) :=
  match e with
  | Upgrade c socket =>
      if decide (c ∈ dom (workers h)) then None
      else Some (mkHub (sockets h) (maps h) (closed h)
                       (<[c := mkWorker socket AtTest Relay.zero_message]> (workers h)),
                 [])
  | Line c =>
      match workers h !! c with
      | Some w =>
          match w_pc w with
          | AtTest =>
              match sockets h !! w_socket w with
              | None => Some (set_pc c w AtMake h, [])
              | Some _ => Some (set_pc c w AtRead h, [])
              end
          | AtMake =>
              let l := make h in
              Some (mkHub (<[w_socket w := l]> (sockets h)) (<[l := ∅]> (maps h))
                          (closed h)
                          (<[c := mkWorker (w_socket w) AtRead (w_message w)]>
                             (workers h)),
                    [])
          | AtRead => Some (set_pc c w (InLoop (sockets h !! w_socket w)) h, [])
          | InLoop _ | Returned => None
          end
      | None => None
      end
  | Read c r fails =>
      match workers h !! c with
      | Some w =>
          match w_pc w, r with
          | InLoop _, None =>
              (* break; the deferred conn.Close() runs *)
              Some (mkHub (sockets h) (maps h) ({[c]} ∪ closed h)
                          (<[c := mkWorker (w_socket w) Returned (w_message w)]>
                             (workers h)),
                    [])
          | InLoop (Some l), Some f =>
              if decide (c ∈ closed h) then None
              else
                let it := Relay.wshandler_iter c (Relay.ReadJSON f (w_message w)) fails
                            (default ∅ (maps h !! l)) (closed h) in
                Some (mkHub (sockets h) (<[l := Relay.i_clients it]> (maps h))
                            (Relay.i_closed it)
                            (<[c := mkWorker (w_socket w) (InLoop (Some l))
                                      (Relay.i_message it)]> (workers h)),
                      Relay.i_out it)
          | _, _ => None
          end
      | None => None
      end
  end.

Definition sender_of (e : Event) : Relay.conn :=
  match e with Upgrade c _ => c | Line c => c | Read c _ _ => c end.

Fixpoint run (evs : list Event) (h : Hub)
    : option (Hub * list (Relay.conn * Relay.Output)) :=
  match evs with
  | [] => Some (h, [])
  | e :: evs' =>
      match step h e with
      | None => None
      | Some (h', out) =>
          match run evs' h' with
          | None => None
          | Some (h'', outs) => Some (h'', ((λ o, (sender_of e, o)) <$> out) ++ outs)
          end
      end
  end.

(** [sockets[socket]] as a reader of the directory sees it. *)
Definition room (h : Hub) (socket : string) : gmap string Relay.Connection :=
  default ∅ (sockets h !! socket ≫= λ l, maps h !! l).

(** The membership probe of a room. *)
Definition members (h : Hub) (socket : string) : gset string :=
  dom (room h socket).

(** The admission of one connection with no statement of another handler
    in between: the upgrade, the test, the assignment when the test found
    no map, and the read. *)
Definition admission (c : Relay.conn) (socket : string) (h : Hub) : option Hub :=
  h1 ← fst <$> step h (Upgrade c socket);
  h2 ← fst <$> step h1 (Line c);
  h3 ← fst <$> step h2 (Line c);
  match w_pc <$> workers h3 !! c with
  | Some AtRead => fst <$> step h3 (Line c)
  | _ => Some h3
  end.

(** A schedule in which admissions are not interleaved: each turn is a
    whole admission or the handling of one message. *)
Inductive Turn :=
  | Admission (c : Relay.conn) (socket : string)
  | Handling (c : Relay.conn) (r : option Relay.Frame) (fails : Relay.conn → bool).

Definition turn (h : Hub) (t : Turn) : option Hub :=
  match t with
  | Admission c socket => admission c socket h
  | Handling c r fails => fst <$> step h (Read c r fails)
  end.

Fixpoint turns (ts : list Turn) (h : Hub) : option Hub :=
  match ts with
  | [] => Some h
  | t :: ts' => h' ← turn h t; turns ts' h'
  end.


(** The map objects are numbered in the order they were made, and every
    reference held by the directory or by a handler is to one of them. *)
Definition allocated (h : Hub) : Prop :=
  (∀ l, is_Some (maps h !! l) ↔ l < size (maps h)) ∧
  (∀ socket l, sockets h !! socket = Some l → l < size (maps h)) ∧
  (∀ c w l, workers h !! c = Some w → w_pc w = InLoop (Some l) → l < size (maps h)).

(** *** Scenarios *)


(** The same requests, one admission after the other. *)
Definition one_by_one : list Turn :=
  [Admission 1 "r"; Admission 2 "r";
   Handling 1 (Some (Relay.frame "connect" "a" None)) Relay.fine;
   Handling 2 (Some (Relay.frame "connect" "b" None)) Relay.fine;
   Handling 2 (Some (Relay.frame "offer" "b" None)) Relay.fine].

End Race.

(** *** Of handles *)

Module Handles.

(** A digit of [hextable]. *)
Definition is_hex_lower (a : ascii) : bool :=
  let n := N_of_ascii a in
  ((48 <=? n) && (n <=? 57) || (97 <=? n) && (n <=? 102))%N.

Fixpoint all_hex_lower (s : string) : bool :=
  match s with
  | EmptyString => true
  | String a s' => is_hex_lower a && all_hex_lower s'
  end.

End Handles.

(** *** [getenv] and the settings read through it *)

Module Config.

(** [os.Getenv] on the environment [env]: the empty string for a variable
    that is not set. *)
Definition Getenv (env : gmap string string) (key : string) : string :=
  default "" (env !! key).

(** [getenv] (main.go, users-service/main.go, common/config.go). *)
Definition getenv (env : gmap string string) (key fallback : string) : string :=
  let value := Getenv env key in
  if decide (String.length value = 0) then fallback else value.

End Config.

(** *** The users service *)

Module Users.

(** [bson.ObjectId] of mgo: a string of 12 raw bytes. *)
Definition ObjectId : Type := list Byte.byte.

(** [ObjectId.Hex] *)
Definition Hex (id : ObjectId) : string := Hex.EncodeToString id.

(** [bson.IsObjectIdHex]: 24 characters that decode as hexadecimal. *)
Definition IsObjectIdHex (s : string) : bool :=
  bool_decide (String.length s = 24) &&
  match Hex.DecodeString s with Some _ => true | None => false end.

(** [bson.ObjectIdHex]: [None] where the Go function panics. *)
Definition ObjectIdHex (s : string) : option ObjectId :=
  match Hex.DecodeString s with
  | Some d => if decide (length d = 12) then Some d else None
  | None => None
  end.

(** [database.UserModel] *)
Record UserModel := mkUser {
  ID : ObjectId;
  Name : string;
  Password : string
}.

(** [database.AddUser]; its fields [Name] and [Password]. *)
Record AddUser := mkAddUser {
  AddUser_Name : string;
  AddUser_Password : string
}.

#[global] Instance UserModel_eq_dec : EqDecision UserModel.
Proof. solve_decision. Defined.

(** [AddUser.Validate]: the text of the error, [None] for nil. *)
Definition Validate (a : AddUser) : option string :=
  if decide (String.length (AddUser_Name a) = 0) then Some "name is empty"
  else if decide (String.length (AddUser_Password a) = 0) then Some "password is empty"
  else None.

(** [Utils.ValidateObjectId] *)
Definition ValidateObjectId (id : string) : option string :=
  if negb (IsObjectIdHex id) then Some "error object id not hex" else None.

(** The collection "users", in insertion order. Every operation of the
    store takes [up]: whether the store answers; when it does not, the
    operation returns an error. *)
Definition Collection : Type := list UserModel.

(** [Find(bson.M{"_id": id}).One]: [None] is [ErrNotFound]. *)
Definition FindId (id : ObjectId) (users : Collection) : option UserModel :=
  List.find (λ u, bool_decide (ID u = id)) users.

(** [Insert]: an error when the [_id] is taken. *)
Definition Insert (up : bool) (user : UserModel) (users : Collection) : option Collection :=
  if up && negb (bool_decide (ID user ∈ ID <$> users)) then Some (users ++ [user])
  else None.

(** [Remove(bson.M{"_id": id})]: removes the document, [ErrNotFound] when
    there is none. *)
Fixpoint remove_id (id : ObjectId) (users : Collection) : option Collection :=
  match users with
  | [] => None
  | u :: users' =>
      if bool_decide (ID u = id) then Some users'
      else cons u <$> remove_id id users'
  end.

(** [Update(bson.M{"_id": id}, bson.M{"$set": {"name", "password"}})]. *)
Fixpoint update_id (id : ObjectId) (name password : string) (users : Collection)
    : option Collection :=
  match users with
  | [] => None
  | u :: users' =>
      if bool_decide (ID u = id) then Some (mkUser (ID u) name password :: users')
      else cons u <$> update_id id name password users'
  end.

(** [dao.User.GetAll] *)
Definition GetAll (up : bool) (users : Collection) : option (list UserModel) :=
  if up then Some users else None.

(** [dao.User.GetByID] *)
Definition GetByID (up : bool) (id : string) (users : Collection) : option UserModel :=
  match ValidateObjectId id with
  | Some _ => None
  | None =>
      match ObjectIdHex id with
      | Some oid => if up then FindId oid users else None
      | None => None
      end
  end.

(** [dao.User.DeleteByID]: the collection afterwards, [None] for an
    error. *)
Definition DeleteByID (up : bool) (id : string) (users : Collection) : option Collection :=
  match ValidateObjectId id with
  | Some _ => None
  | None =>
      match ObjectIdHex id with
      | Some oid => if up then remove_id oid users else None
      | None => None
      end
  end.

(** A JSON value as the handlers write it. *)
#[local] Unset Elimination Schemes.
Inductive Json :=
  | JString (s : string)
  | JObject (fields : list (string * Json))
  | JArray (items : list Json).
#[local] Set Elimination Schemes.

(** [UserModel] under its [json] tags; an [ObjectId] marshals as its
    hexadecimal form. *)
Definition user_json (u : UserModel) : Json :=
  JObject [("id", JString (Hex (ID u))); ("name", JString (Name u));
           ("password", JString (Password u))].

Definition error_json (msg : string) : Json := JObject [("error", JString msg)].

(** What a handler answers: every path of the handlers below calls
    [ctx.JSON] once. *)
Definition Response : Type := nat * Json.

(** The outcome of [ctx.ShouldBindJSON]. *)
Inductive Bind (A : Type) :=
  | BindError (err : string)
  | Bound (a : A).
Arguments BindError {A} err.
Arguments Bound {A} a.

(** The anonymous struct [credentials] of [Authenticate]. *)
Record Credentials := mkCredentials {
  Username : string;
  Cred_Password : string
}.

(** The first user with this name and this password. *)
Definition find_user (c : Credentials) (users : list UserModel) : option UserModel :=
  List.find (λ u, bool_decide (Name u = Username c) &&
                  bool_decide (Password u = Cred_Password c)) users.

(** [User.Authenticate]. [GenerateJWT name role] is the token
    [Utils.GenerateJWT] signs at the time of the call, [None] for an
    error. *)
Definition Authenticate (GenerateJWT : string → string → option string)
    (up : bool) (body : Bind Credentials) (users : Collection) : Response :=
  match body with
  | BindError err => (400, error_json err)
  | Bound credentials =>
      match GetAll up users with
      | None => (500, error_json "Database error")
      | Some all =>
          match find_user credentials all with
          | None => (401, error_json "Invalid credentials")
          | Some foundUser =>
              match GenerateJWT (Name foundUser) "user" with
              | None => (500, error_json "Token generation failed")
              | Some token =>
                  (200, JObject [("token", JString token);
                                 ("user", JObject [("id", JString (Hex (ID foundUser)));
                                                   ("name", JString (Name foundUser))])])
              end
          end
      end
  end.

(** [User.GetUsers]; [err] is the text of the error of the store. *)
Definition GetUsers (err : string) (up : bool) (users : Collection) : Response :=
  match GetAll up users with
  | None => (500, error_json err)
  | Some all => (200, JArray (user_json <$> all))
  end.

(** [User.GetUser] *)
Definition GetUser (up : bool) (id : string) (users : Collection) : Response :=
  match GetByID up id users with
  | None => (404, error_json "User not found")
  | Some user => (200, user_json user)
  end.

(** [User.CreateUser]. [oid] is the value of [bson.NewObjectId()]. *)
Definition CreateUser (up : bool) (oid : ObjectId) (body : Bind AddUser)
    (users : Collection) : Collection * Response :=
  match body with
  | BindError err => (users, (400, error_json err))
  | Bound newUser =>
      match Validate newUser with
      | Some err => (users, (400, error_json err))
      | None =>
          let user := mkUser oid (AddUser_Name newUser) (AddUser_Password newUser) in
          match Insert up user users with
          | None => (users, (500, error_json "Failed to create user"))
          | Some users' =>
              (users', (201, JObject [("id", JString (Hex (ID user)));
                                      ("name", JString (Name user))]))
          end
      end
  end.

(** [User.UpdateUser] *)
Definition UpdateUser (up : bool) (id : string) (body : Bind AddUser)
    (users : Collection) : Collection * Response :=
  match body with
  | BindError err => (users, (400, error_json err))
  | Bound updateUser =>
      match Validate updateUser with
      | Some err => (users, (400, error_json err))
      | None =>
          match ValidateObjectId id with
          | Some _ => (users, (400, error_json "Invalid ID"))
          | None =>
              match (if up then
                       match ObjectIdHex id with
                       | Some oid => update_id oid (AddUser_Name updateUser)
                                       (AddUser_Password updateUser) users
                       | None => None
                       end
                     else None) with
              | None => (users, (404, error_json "User not found"))
              | Some users' =>
                  (users', (200, JObject [("message", JString "User updated successfully")]))
              end
          end
      end
  end.

(** [User.DeleteUser] *)
Definition DeleteUser (up : bool) (id : string) (users : Collection)
    : Collection * Response :=
  match DeleteByID up id users with
  | None => (users, (404, error_json "User not found"))
  | Some users' =>
      (users', (200, JObject [("message", JString "User deleted successfully")]))
  end.

(** [MongoDB.initData]: the collection afterwards and whether an error is
    returned. The store is asked twice, and answers each call or not:
    [counted] is for [Count], [up] for [Insert]. A [Count] that fails
    returns 0 with its error; line 52 tests the count alone, so the insert
    is tried all the same, also on a collection that has users, and its
    result replaces the error. *)
Definition initData (counted up : bool) (oid : ObjectId) (users : Collection)
    : Collection * bool :=
  let count := if counted then length users else 0 in
  let err := negb counted in
  if count <? 1 then
    match Insert up (mkUser oid "admin" "admin") users with
    | Some users' => (users', false)
    | None => (users, true)
    end
  else (users, err).

(** One request to the service, or its start-up. *)
Inductive Op :=
  | OpInit (counted up : bool) (oid : ObjectId)
  | OpCreate (up : bool) (oid : ObjectId) (body : Bind AddUser)
  | OpUpdate (up : bool) (id : string) (body : Bind AddUser)
  | OpDelete (up : bool) (id : string).

Definition apply_op (op : Op) (users : Collection) : Collection :=
  match op with
  | OpInit counted up oid => (initData counted up oid users).1
  | OpCreate up oid body => (CreateUser up oid body users).1
  | OpUpdate up id body => (UpdateUser up id body users).1
  | OpDelete up id => (DeleteUser up id users).1
  end.

(** The ids that [bson.NewObjectId] hands out have 12 bytes. *)
Definition well_formed (op : Op) : Prop :=
  match op with
  | OpInit _ _ oid | OpCreate _ oid _ => length oid = 12
  | _ => True
  end.

(** The collections the service can build from an empty store. *)
Inductive reachable : Collection → Prop :=
  | reachable_nil : reachable []
  | reachable_op op users :
      reachable users → well_formed op → reachable (apply_op op users).

End Users.

(** ** Part III: properties of the relay hub *)

Module RelayFacts.
Import Relay.

(** *** The [range] loops *)

Ltac visit_solver := simpl in *; firstorder (subst; congruence).

Section range_loop.
Context (skip : string → bool) (close_on_err : bool)
        (message : Message) (fails : conn → bool).

Local Abbreviation body := (range_body skip close_on_err message fails).
Local Abbreviation visited := (Relay.visited skip fails).

(** Closing a connection on which the write has just failed does not
    change the outcome of any later write of the same loop. *)
Lemma write_fails_close cl c0 c :
  WriteJSON cl fails c0 = true →
  WriteJSON ({[c0]} ∪ cl) fails c = WriteJSON cl fails c.
Proof.
  unfold WriteJSON. intros H0.
  destruct (decide (c = c0)) as [->|Hne].
  - rewrite H0. rewrite bool_decide_eq_true_2 by set_solver. done.
  - f_equal. apply bool_decide_ext. set_solver.
Qed.

Lemma body_write_fails acc e clients1 cl1 out1 c :
  body acc e = (clients1, cl1, out1) →
  WriteJSON cl1 fails c = WriteJSON acc.1.2 fails c.
Proof.
  destruct acc as [[clients cl] out], e as [user client]. simpl.
  destruct (skip user); [by intros [= <- <- <-]|].
  destruct (Send cl fails client) eqn:Hw;
    [|by intros [= <- <- <-]].
  intros [= <- <- <-]. destruct close_on_err; [|done].
  by apply write_fails_close.
Qed.

Lemma visited_cons e es cl failed user client :
  visited (e :: es) cl failed user client ↔
  (e.1 = user ∧ e.2 = client ∧ skip user = false ∧
     Send cl fails client = failed)
  ∨ visited es cl failed user client.
Proof. unfold Relay.visited. rewrite elem_of_cons. destruct e. naive_solver. Qed.

Lemma visited_write_fails es cl cl' failed user client :
  (∀ c, WriteJSON cl' fails c = WriteJSON cl fails c) →
  visited es cl' failed user client ↔ visited es cl failed user client.
Proof. intros Hwf. unfold Relay.visited, Send. by rewrite Hwf. Qed.

(** The member map after the loop: exactly the entries whose write
    failed are gone. *)
Lemma foldl_body_clients es clients cl out clients' cl' out' user client :
  foldl body (clients, cl, out) es = (clients', cl', out') →
  clients' !! user = Some client ↔
  clients !! user = Some client ∧ ∀ client0, ¬ visited es cl true user client0.
Proof.
  revert clients cl out. induction es as [|[u0 c0] es IH]; intros clients cl out.
  - simpl. intros [= <- <- <-]. unfold Relay.visited. set_solver.
  - cbn [foldl]. destruct (body (clients, cl, out) (u0, c0)) as [[clients1 cl1] out1] eqn:Hb.
    intros Hf. rewrite (IH _ _ _ Hf).
    assert (Hwf : ∀ c, WriteJSON cl1 fails c = WriteJSON cl fails c)
      by (intros c; apply (body_write_fails _ _ _ _ _ _ Hb)).
    setoid_rewrite (visited_write_fails es cl cl1 _ _ _ Hwf).
    setoid_rewrite visited_cons. clear IH Hf Hwf.
    simpl in Hb. destruct (skip u0) eqn:Hs.
    { injection Hb as <- <- <-. visit_solver. }
    destruct (Send cl fails c0) eqn:Hw0.
    + injection Hb as <- <- <-.
      destruct (decide (user = u0)) as [->|Hne].
      * rewrite lookup_delete_eq. visit_solver.
      * rewrite lookup_delete_ne by done. visit_solver.
    + injection Hb as <- <- <-. visit_solver.
Qed.

(** The writes of the loop: one [Forward] for each entry that is not
    skipped and whose write succeeds. *)
Lemma foldl_body_out es clients cl out clients' cl' out' o :
  foldl body (clients, cl, out) es = (clients', cl', out') →
  o ∈ out' ↔
  o ∈ out ∨ ∃ user client, visited es cl false user client ∧
                           o = Forward user (Socket client) message.
Proof.
  revert clients cl out. induction es as [|[u0 c0] es IH]; intros clients cl out.
  - simpl. intros [= <- <- <-]. unfold Relay.visited. set_solver.
  - cbn [foldl]. destruct (body (clients, cl, out) (u0, c0)) as [[clients1 cl1] out1] eqn:Hb.
    intros Hf. rewrite (IH _ _ _ Hf).
    assert (Hwf : ∀ c, WriteJSON cl1 fails c = WriteJSON cl fails c)
      by (intros c; apply (body_write_fails _ _ _ _ _ _ Hb)).
    setoid_rewrite (visited_write_fails es cl cl1 _ _ _ Hwf).
    setoid_rewrite visited_cons. clear IH Hf Hwf.
    simpl in Hb. destruct (skip u0) eqn:Hs.
    { injection Hb as <- <- <-. visit_solver. }
    destruct (Send cl fails c0) eqn:Hw0.
    + injection Hb as <- <- <-. visit_solver.
    + injection Hb as <- <- <-. rewrite elem_of_app, list_elem_of_singleton.
      visit_solver.
Qed.

(** The closed connections after the loop. *)
Lemma foldl_body_closed es clients cl out clients' cl' out' c :
  foldl body (clients, cl, out) es = (clients', cl', out') →
  c ∈ cl' ↔
  c ∈ cl ∨ (close_on_err = true ∧
            ∃ user client, visited es cl true user client ∧ Socket client = c).
Proof.
  revert clients cl out. induction es as [|[u0 c0] es IH]; intros clients cl out.
  - simpl. intros [= <- <- <-]. unfold Relay.visited. set_solver.
  - cbn [foldl]. destruct (body (clients, cl, out) (u0, c0)) as [[clients1 cl1] out1] eqn:Hb.
    intros Hf. rewrite (IH _ _ _ Hf).
    assert (Hwf : ∀ c, WriteJSON cl1 fails c = WriteJSON cl fails c)
      by (intros c'; apply (body_write_fails _ _ _ _ _ _ Hb)).
    setoid_rewrite (visited_write_fails es cl cl1 _ _ _ Hwf).
    setoid_rewrite visited_cons. clear IH Hf Hwf.
    simpl in Hb. destruct (skip u0) eqn:Hs.
    { injection Hb as <- <- <-. visit_solver. }
    destruct (Send cl fails c0) eqn:Hw0.
    + injection Hb as <- <- <-. destruct close_on_err.
      * rewrite elem_of_union, elem_of_singleton. visit_solver.
      * visit_solver.
    + injection Hb as <- <- <-. visit_solver.
Qed.

(** The order in which the entries are visited does not matter for the
member map, for the closed connections, or for what is written. *)
Lemma foldl_body_order es1 es2 clients cl out c1 cl1 o1 c2 cl2 o2 :
  es1 ≡ₚ es2 →
  foldl body (clients, cl, out) es1 = (c1, cl1, o1) →
  foldl body (clients, cl, out) es2 = (c2, cl2, o2) →
  c1 = c2 ∧ cl1 = cl2 ∧ ∀ o, o ∈ o1 ↔ o ∈ o2.
Proof.
  intros Hp H1 H2.
  assert (Hv : ∀ failed user client,
            visited es1 cl failed user client ↔ visited es2 cl failed user client).
  { intros failed user client. unfold Relay.visited. by rewrite Hp. }
  split_and!.
  - apply map_eq. intros user. apply option_eq. intros client.
    rewrite (foldl_body_clients _ _ _ _ _ _ _ _ _ H1).
    rewrite (foldl_body_clients _ _ _ _ _ _ _ _ _ H2).
    by setoid_rewrite Hv.
  - apply set_eq. intros c.
    rewrite (foldl_body_closed _ _ _ _ _ _ _ _ H1).
    rewrite (foldl_body_closed _ _ _ _ _ _ _ _ H2).
    by setoid_rewrite Hv.
  - intros o.
    rewrite (foldl_body_out _ _ _ _ _ _ _ _ H1).
    rewrite (foldl_body_out _ _ _ _ _ _ _ _ H2).
    by setoid_rewrite Hv.
Qed.

End range_loop.

(** The three facts for the loop as [wshandler] runs it, over the entries
    of the member map. *)
Lemma visited_map_to_list skip fails (clients : gmap string Connection) cl failed user client :
  visited skip fails (map_to_list clients) cl failed user client ↔
  clients !! user = Some client ∧ skip user = false ∧
  Send cl fails client = failed.
Proof. unfold visited. by rewrite elem_of_map_to_list. Qed.

Lemma range_send_clients skip coe message fails clients cl clients' cl' out' user client :
  range_send skip coe message fails clients cl = (clients', cl', out') →
  clients' !! user = Some client ↔
  clients !! user = Some client ∧
  ¬ (skip user = false ∧ Send cl fails client = true).
Proof.
  unfold range_send. intros Hf.
  rewrite (foldl_body_clients _ _ _ _ _ _ _ _ _ _ _ _ _ Hf).
  setoid_rewrite visited_map_to_list. split.
  - intros [Hl Hn]. split; [done|]. intros [? ?]. by apply (Hn client).
  - intros [Hl Hn]. split; [done|]. intros client0 (Hl0 & ? & ?).
    rewrite Hl in Hl0. injection Hl0 as <-. by apply Hn.
Qed.

Lemma range_send_out skip coe message fails clients cl clients' cl' out' o :
  range_send skip coe message fails clients cl = (clients', cl', out') →
  o ∈ out' ↔
  ∃ user client, clients !! user = Some client ∧ skip user = false ∧
                 Send cl fails client = false ∧
                 o = Forward user (Socket client) message.
Proof.
  unfold range_send. intros Hf.
  rewrite (foldl_body_out _ _ _ _ _ _ _ _ _ _ _ _ Hf).
  setoid_rewrite visited_map_to_list. split.
  - intros [Hin|(user & client & (? & ? & ?) & ->)]; [by apply elem_of_nil in Hin|].
    by exists user, client.
  - intros (user & client & ? & ? & ? & ->). right. by exists user, client.
Qed.

Lemma range_send_closed skip coe message fails clients cl clients' cl' out' c :
  range_send skip coe message fails clients cl = (clients', cl', out') →
  c ∈ cl' ↔
  c ∈ cl ∨ (coe = true ∧
            ∃ user client, clients !! user = Some client ∧ skip user = false ∧
                           Send cl fails client = true ∧
                           Socket client = c).
Proof.
  unfold range_send. intros Hf.
  rewrite (foldl_body_closed _ _ _ _ _ _ _ _ _ _ _ _ Hf).
  setoid_rewrite visited_map_to_list. naive_solver.
Qed.

(** *** One iteration of [wshandler] *)

Lemma lookup_register c message clients user client :
  register c message clients !! user = Some client →
  clients !! user = Some client ∨ (user = UserID message ∧ client = mkConnection c).
Proof.
  unfold register. destruct (clients !! UserID message) eqn:Hl; [by left|].
  destruct (decide (UserID message = user)) as [<-|Hne].
  - rewrite lookup_insert_eq. intros [= <-]. by right.
  - rewrite lookup_insert_ne by done. by left.
Qed.

(** The [switch] never adds a member: whoever is in the map afterwards was
    there after registration. *)
Lemma switch_on_type_clients skip c message fails clients cl user client :
  i_clients (switch_on_type skip c message fails clients cl) !! user = Some client →
  clients !! user = Some client.
Proof.
  unfold switch_on_type.
  destruct (decide (Type_ message = "connect")) as [Ht|Ht].
  { destruct (WriteJSON cl fails c); simpl; [|done].
    intros Hl. apply lookup_delete_Some in Hl. tauto. }
  destruct (decide (Type_ message = "disconnect")) as [Hd|Hd].
  - destruct (range_send skip true message fails clients cl) as [[clients' cl'] out'] eqn:Hr.
    simpl. intros Hl. apply lookup_delete_Some in Hl as [_ Hl].
    by apply (range_send_clients _ _ _ _ _ _ _ _ _ _ _ Hr) in Hl as [? _].
  - destruct (range_send skip false message fails clients cl) as [[clients' cl'] out'] eqn:Hr.
    simpl. intros Hl.
    by apply (range_send_clients _ _ _ _ _ _ _ _ _ _ _ Hr) in Hl as [? _].
Qed.

(** Every write of the [switch]: a reply on the handler's own connection,
    or a forward to an entry of the member map that is not skipped. *)
Lemma switch_on_type_out skip c message fails clients cl o :
  o ∈ i_out (switch_on_type skip c message fails clients cl) →
  (∃ m, o = Reply c m) ∨
  (∃ user client, clients !! user = Some client ∧ skip user = false ∧
                  o = Forward user (Socket client) message).
Proof.
  unfold switch_on_type.
  destruct (decide (Type_ message = "connect")) as [Ht|Ht].
  { destruct (WriteJSON cl fails c); simpl; [by intros ?%elem_of_nil|].
    intros ->%list_elem_of_singleton. left. eauto. }
  destruct (decide (Type_ message = "disconnect")) as [Hd|Hd].
  - destruct (range_send skip true message fails clients cl) as [[clients' cl'] out'] eqn:Hr.
    simpl. intros Ho. apply (range_send_out _ _ _ _ _ _ _ _ _ _ Hr) in Ho.
    right. naive_solver.
  - destruct (range_send skip false message fails clients cl) as [[clients' cl'] out'] eqn:Hr.
    simpl. intros Ho. apply (range_send_out _ _ _ _ _ _ _ _ _ _ Hr) in Ho.
    right. naive_solver.
Qed.

(** *** Delivery *)

(** C1, as stated, fails: a sends an offer with [to = "b"], and c, who is
    not the recipient, is written a copy as well. *)
Lemma targeted_delivery_counterexample :
  ∃ out,
    writes_of three_joined (Read 1 (Some (frame "offer" "a" (Some "b"))) fine)
    = Some out ∧
    out ≡ₚ [Forward "b" 2 (mkMessage "offer" "a" "" "" "b");
            Forward "c" 3 (mkMessage "offer" "a" "" "" "b")].
Proof.
  eexists. split; [vm_compute; reflexivity|]. apply Permutation_swap.
Qed.

(** C1, amended: a message whose type is neither connect nor disconnect is
    written, with its [to] field as it came, to every member of the room
    other than the sender whose connection takes the write, whatever [to]
    says; nothing else is written. *)
Theorem relay_ignores_recipient c message fails clients cl o :
  Type_ message ≠ "connect" →
  Type_ message ≠ "disconnect" →
  o ∈ i_out (wshandler_iter c message fails clients cl) ↔
  ∃ user client,
    register c message clients !! user = Some client ∧
    user ≠ UserID message ∧
    Send cl fails client = false ∧
    o = Forward user (Socket client) message.
Proof.
  intros Hc Hd. unfold wshandler_iter, switch_on_type.
  rewrite !decide_False by done.
  destruct (range_send _ false message fails (register c message clients) cl)
    as [[clients' cl'] out'] eqn:Hr.
  simpl. rewrite (range_send_out _ _ _ _ _ _ _ _ _ _ Hr).
  split; intros (user & client & Hl & Hs & Hw & ->); exists user, client;
    split_and!; try done.
  - by apply bool_decide_eq_false in Hs.
  - by apply bool_decide_eq_false.
Qed.

Lemma relay_ignores_recipient_witness :
  let message := mkMessage "offer" "a" "" "" "b" in
  Type_ message ≠ "connect" ∧ Type_ message ≠ "disconnect" ∧
  Forward "c" 3 message
  ∈ i_out (wshandler_iter 1 message fine
             {[ "a" := mkConnection 1; "b" := mkConnection 2;
                "c" := mkConnection 3 ]} ∅).
Proof.
  split; [done|]. split; [done|].
  apply (relay_ignores_recipient 1 (mkMessage "offer" "a" "" "" "b") fine
           {[ "a" := mkConnection 1; "b" := mkConnection 2;
              "c" := mkConnection 3 ]} ∅);
    [done | done |].
  exists "c", (mkConnection 3). split_and!; [by vm_compute | done | done | done].
Defined.

(** In the handler with the guard, no forward is ever addressed to the
    entry of the sender, whatever the type of the message. *)
Lemma guarded_no_self_delivery c message fails clients cl user d m :
  Forward user d m ∈ i_out (wshandler_iter c message fails clients cl) →
  user ≠ UserID message.
Proof.
  unfold wshandler_iter. intros Ho.
  apply switch_on_type_out in Ho as [[m' [=]]|(u & cl0 & _ & Hs & [= -> _ _])].
  by apply bool_decide_eq_false in Hs.
Qed.

(** C2 holds of the handler of lines 27-90, and fails in the second
    [wshandler] of the same file (lines 195-253), whose loops have no guard:
    with a and b in the room, a's offer is written to a's own entry too. *)
Theorem unguarded_self_delivery :
  i_out (wshandler_iter_unguarded 1 (mkMessage "offer" "a" "" "" "") fine
           {[ "a" := mkConnection 1; "b" := mkConnection 2 ]} ∅)
  ≡ₚ [Forward "a" 1 (mkMessage "offer" "a" "" "" "");
      Forward "b" 2 (mkMessage "offer" "a" "" "" "")]
  ∧ i_out (wshandler_iter_unguarded 1 (mkMessage "disconnect" "a" "" "" "") fine
           {[ "a" := mkConnection 1; "b" := mkConnection 2 ]} ∅)
  ≡ₚ [Forward "a" 1 (mkMessage "disconnect" "a" "" "" "");
      Forward "b" 2 (mkMessage "disconnect" "a" "" "" "")].
Proof. split; vm_compute; reflexivity. Qed.

(** *** Membership *)

(** A [switch] on a type other than connect drops every entry that is not
    skipped and whose connection refuses the write. *)
Lemma switch_on_type_drops skip c message fails clients cl user client :
  Type_ message ≠ "connect" →
  clients !! user = Some client →
  skip user = false →
  Send cl fails client = true →
  i_clients (switch_on_type skip c message fails clients cl) !! user = None.
Proof.
  intros Hc Hl Hs Hw. unfold switch_on_type. rewrite decide_False by done.
  destruct (decide (Type_ message = "disconnect")) as [Hd|Hd].
  - destruct (range_send skip true message fails clients cl) as [[clients' cl'] out'] eqn:Hr.
    simpl. apply lookup_delete_None. right.
    destruct (clients' !! user) as [client'|] eqn:Hl'; [|done].
    apply (range_send_clients _ _ _ _ _ _ _ _ _ _ _ Hr) in Hl' as [Hl' Hn].
    rewrite Hl in Hl'. injection Hl' as <-. by destruct Hn.
  - destruct (range_send skip false message fails clients cl) as [[clients' cl'] out'] eqn:Hr.
    simpl. destruct (clients' !! user) as [client'|] eqn:Hl'; [|done].
    apply (range_send_clients _ _ _ _ _ _ _ _ _ _ _ Hr) in Hl' as [Hl' Hn].
    rewrite Hl in Hl'. injection Hl' as <-. by destruct Hn.
Qed.

Lemma room_insert h socket clients cl hs :
  room (mkHub (<[socket := clients]> (sockets h)) cl hs) socket = clients.
Proof. unfold room. simpl. by rewrite lookup_insert_eq. Qed.

(** C3, as stated, fails: a joins room r on connection 1, then the read on
    connection 1 fails. The handler has returned, and a is still a member. *)
Lemma crash_removal_counterexample :
  (λ r, (members r.1 "r", h_live <$> handlers r.1 !! 1))
    <$> run [Upgrade 1 "r";
             Read 1 (Some (frame "connect" "a" None)) fine;
             Read 1 None fine] init
  = Some ({["a"]}, Some false).
Proof. vm_compute. reflexivity. Qed.

(** C3, amended: when the read fails the handler returns and its connection
    is closed, nothing is written and the member set is left as it was; the
    entries bound to that connection go when a later message of another
    member of the room, of a type other than connect, is relayed: the write
    to the closed connection fails and the entry is deleted. *)
Theorem read_failure_keeps_member h c fails h1 out1 :
  step h (Read c None fails) = Some (h1, out1) →
  sockets h1 = sockets h ∧ out1 = [] ∧ c ∈ closed h1 ∧
  h_live <$> handlers h1 !! c = Some false ∧
  ∀ c' f fails' h2 out2 hd user,
    step h1 (Read c' (Some f) fails') = Some (h2, out2) →
    handlers h1 !! c' = Some hd →
    room h1 (h_socket hd) !! user = Some (mkConnection c) →
    Type_ (ReadJSON f (h_message hd)) ≠ "connect" →
    UserID (ReadJSON f (h_message hd)) ≠ user →
    room h2 (h_socket hd) !! user = None.
Proof.
  simpl. destruct (handlers h !! c) as [hd0|] eqn:Hh; [|done].
  destruct (h_live hd0); [|done]. intros [= <- <-]. simpl.
  split_and!; [done | done | set_solver | by rewrite lookup_insert_eq |].
  intros c' f fails' h2 out2 hd user Hstep Hh' Hl Ht Hu.
  cbn [step] in Hstep. rewrite Hh' in Hstep.
  destruct (h_live hd); [|done].
  destruct (decide (c' ∈ _)); [done|].
  injection Hstep as <- <-. rewrite room_insert.
  unfold wshandler_iter. eapply switch_on_type_drops; [done | | |].
  - unfold register. destruct (_ !! UserID _) eqn:Hl0; [exact Hl|].
    rewrite lookup_insert_ne by done. exact Hl.
  - by apply bool_decide_eq_false.
  - unfold Send, WriteJSON. simpl. rewrite bool_decide_eq_true_2; [done|set_solver].
Qed.

Lemma read_failure_keeps_member_witness :
  let h := hub_after two_joined in
  let h1 := hub_after (two_joined ++ [Read 1 None fine]) in
  let e2 := Read 2 (Some (frame "offer" "b" None)) fine in
  let h2 := hub_after (two_joined ++ [Read 1 None fine; e2]) in
  step h (Read 1 None fine) = Some (h1, []) ∧
  members h1 "r" = {["a"; "b"]} ∧
  step h1 e2 = Some (h2, []) ∧
  room h2 "r" !! "a" = None.
Proof.
  intros h h1 e2 h2.
  assert (H1 : step h (Read 1 None fine) = Some (h1, [])) by (vm_compute; reflexivity).
  assert (H2 : step h1 e2 = Some (h2, [])) by (vm_compute; reflexivity).
  split; [exact H1|]. split; [vm_compute; reflexivity|]. split; [exact H2|].
  destruct (read_failure_keeps_member h 1 fine h1 [] H1) as (_ & _ & _ & _ & Hlater).
  apply (Hlater 2 (frame "offer" "b" None) fine h2 []
           (mkHandler "r" (mkMessage "session_joined" "b" "" "" "") true) "a" H2).
  - vm_compute; reflexivity.
  - vm_compute; reflexivity.
  - discriminate.
  - discriminate.
Defined.

(** *** The room directory *)

Lemma enter_room_is_Some socket s socket' :
  is_Some (s !! socket') → is_Some (enter_room socket s !! socket').
Proof.
  unfold enter_room. destruct (s !! socket) eqn:Hs; [done|].
  intros [x Hx]. destruct (decide (socket = socket')) as [->|Hne].
  - rewrite lookup_insert_eq. eauto.
  - rewrite lookup_insert_ne by done. eauto.
Qed.

(** No step removes a key of [sockets]. *)
Lemma step_keeps_rooms h e h' out socket :
  step h e = Some (h', out) →
  is_Some (sockets h !! socket) → is_Some (sockets h' !! socket).
Proof.
  destruct e as [c s|c [f|] fails]; simpl.
  - destruct (decide (c ∈ _)); [done|]. intros [= <- <-]. simpl. apply enter_room_is_Some.
  - destruct (handlers h !! c) as [hd|]; [|done]. destruct (h_live hd); [|done].
    destruct (decide (c ∈ _)); [done|]. intros [= <- <-]. simpl.
    intros [x Hx]. destruct (decide (h_socket hd = socket)) as [->|Hne].
    + rewrite lookup_insert_eq. eauto.
    + rewrite lookup_insert_ne by done. eauto.
  - destruct (handlers h !! c) as [hd|]; [|done]. destruct (h_live hd); [|done].
    by intros [= <- <-].
Qed.

Lemma step_handlers_have_rooms h e h' out :
  handlers_have_rooms h → step h e = Some (h', out) → handlers_have_rooms h'.
Proof.
  intros Hinv Hstep c hd Hc.
  assert (Hold : ∀ hd0, handlers h !! c = Some hd0 →
                        is_Some (sockets h' !! h_socket hd0)).
  { intros hd0 Hc0. eapply step_keeps_rooms; [done|]. by eapply Hinv. }
  revert Hstep Hc. destruct e as [c0 s|c0 [f|] fails]; simpl.
  - destruct (decide (c0 ∈ _)); [done|]. intros [= <- <-]. simpl in *.
    destruct (decide (c0 = c)) as [->|Hne].
    + rewrite lookup_insert_eq. intros [= <-]. simpl.
      unfold enter_room. destruct (sockets h !! s) eqn:Hs; [by rewrite Hs|].
      rewrite lookup_insert_eq. eauto.
    + rewrite lookup_insert_ne by done. eauto.
  - destruct (handlers h !! c0) as [hd0|] eqn:Hh; [|done]. destruct (h_live hd0); [|done].
    destruct (decide (c0 ∈ _)); [done|]. intros [= <- <-]. simpl in *.
    destruct (decide (c0 = c)) as [->|Hne].
    + rewrite lookup_insert_eq. intros [= <-]. simpl. rewrite lookup_insert_eq. eauto.
    + rewrite lookup_insert_ne by done. eauto.
  - destruct (handlers h !! c0) as [hd0|] eqn:Hh; [|done]. destruct (h_live hd0); [|done].
    intros [= <- <-]. simpl in *.
    destruct (decide (c0 = c)) as [->|Hne].
    + rewrite lookup_insert_eq. intros [= <-]. simpl. by eapply Hinv.
    + rewrite lookup_insert_ne by done. eauto.
Qed.

Lemma run_handlers_have_rooms evs h outs :
  run evs init = Some (h, outs) → handlers_have_rooms h.
Proof.
  assert (Hgen : ∀ h0, handlers_have_rooms h0 →
                       run evs h0 = Some (h, outs) → handlers_have_rooms h).
  { revert outs. induction evs as [|e evs IH]; intros outs h0 Hinv; simpl.
    - by intros [= <- <-].
    - destruct (step h0 e) as [[h1 out]|] eqn:Hstep; [|done].
      destruct (run evs h1) as [[h2 outs2]|] eqn:Hrun; [|done].
      intros [= <- <-]. eapply IH; [|done]. by eapply step_handlers_have_rooms. }
  apply Hgen. intros c hd. simpl. by rewrite lookup_empty.
Qed.

(** C4, as stated, fails: a joins room r and leaves it with a disconnect
    message; r is still a key of the directory, mapped to the empty set. *)
Lemma empty_room_pruning_counterexample :
  (λ r, sockets r.1 !! "r")
    <$> run [Upgrade 1 "r";
             Read 1 (Some (frame "connect" "a" None)) fine;
             Read 1 (Some (frame "disconnect" "a" None)) fine] init
  = Some (Some ∅).
Proof. vm_compute. reflexivity. Qed.

(** C4, amended: no room entry is ever deleted from the directory. A key of
    [sockets] is a key in every later state, after any sequence of
    admissions, messages and read failures; when no participant is left in a
    room, its key maps to the empty participant set. *)
Theorem rooms_never_pruned evs h h' outs socket :
  run evs h = Some (h', outs) →
  is_Some (sockets h !! socket) →
  is_Some (sockets h' !! socket) ∧
  (members h' socket = ∅ → sockets h' !! socket = Some ∅).
Proof.
  intros Hrun Hs.
  assert (Hs' : is_Some (sockets h' !! socket)).
  { revert h outs Hrun Hs. induction evs as [|e evs IH]; intros h outs; simpl.
    - by intros [= <- <-].
    - destruct (step h e) as [[h1 out]|] eqn:Hstep; [|done].
      destruct (run evs h1) as [[h2 outs2]|] eqn:Hrun; [|done].
      intros [= <- <-] Hs. eapply IH; [done|]. by eapply step_keeps_rooms. }
  split; [done|]. destruct Hs' as [clients Hc].
  unfold members, room. rewrite Hc. simpl. intros Hd.
  by apply dom_empty_inv_L in Hd as ->.
Qed.

Lemma rooms_never_pruned_witness :
  let evs := [Read 1 (Some (frame "connect" "a" None)) fine;
              Read 1 (Some (frame "disconnect" "a" None)) fine] in
  let h := hub_after [Upgrade 1 "r"] in
  let h' := hub_after (Upgrade 1 "r" :: evs) in
  is_Some (sockets h !! "r") ∧ members h' "r" = ∅ ∧ sockets h' !! "r" = Some ∅.
Proof.
  intros evs h h'.
  assert (Hrun : run evs h = Some (h',
            [(1, Reply 1 (mkMessage "session_joined" "a" "" "" ""))]))
    by (vm_compute; reflexivity).
  assert (Hs : is_Some (sockets h !! "r")) by (vm_compute; eauto).
  assert (Hm : members h' "r" = ∅) by (vm_compute; reflexivity).
  split; [exact Hs|]. split; [exact Hm|].
  exact (proj2 (rooms_never_pruned evs h h' _ "r" Hrun Hs) Hm).
Defined.

(** *** Room isolation *)

Lemma rooms_hold_own_conns_room h socket user client :
  rooms_hold_own_conns h →
  room h socket !! user = Some client →
  room_of h (Socket client) = Some socket.
Proof.
  intros Hinv. unfold room. destruct (sockets h !! socket) as [clients|] eqn:Hs; simpl.
  - by apply Hinv.
  - by rewrite lookup_empty.
Qed.

Lemma init_rooms_hold_own_conns : rooms_hold_own_conns init.
Proof. intros socket clients user client. simpl. by rewrite lookup_empty. Qed.

(** A step never changes the room of a connection. *)
Lemma step_room_of h e h' out c socket :
  step h e = Some (h', out) →
  room_of h c = Some socket → room_of h' c = Some socket.
Proof.
  unfold room_of. destruct e as [c0 s|c0 [f|] fails]; simpl.
  - destruct (decide (c0 ∈ _)) as [|Hn]; [done|]. intros [= <- <-]. simpl.
    destruct (decide (c0 = c)) as [->|Hne].
    + apply not_elem_of_dom in Hn. by rewrite Hn.
    + by rewrite lookup_insert_ne.
  - destruct (handlers h !! c0) as [hd|] eqn:Hh; [|done]. destruct (h_live hd); [|done].
    destruct (decide (c0 ∈ _)); [done|]. intros [= <- <-]. simpl.
    destruct (decide (c0 = c)) as [->|Hne].
    + rewrite lookup_insert_eq, Hh. done.
    + by rewrite lookup_insert_ne.
  - destruct (handlers h !! c0) as [hd|] eqn:Hh; [|done]. destruct (h_live hd); [|done].
    intros [= <- <-]. simpl.
    destruct (decide (c0 = c)) as [->|Hne].
    + rewrite lookup_insert_eq, Hh. done.
    + by rewrite lookup_insert_ne.
Qed.

Lemma step_rooms_hold_own_conns h e h' out :
  rooms_hold_own_conns h →
  step h e = Some (h', out) →
  rooms_hold_own_conns h'.
Proof.
  intros Hinv Hstep socket clients user client Hs Hl.
  assert (Hold : ∀ s cs, sockets h !! s = Some cs → cs !! user = Some client →
                         room_of h' (Socket client) = Some s).
  { intros s cs Hs0 Hl0. eapply step_room_of; [done|]. by eapply Hinv. }
  revert Hstep Hs. destruct e as [c0 s|c0 [f|] fails]; simpl.
  - destruct (decide (c0 ∈ _)) as [|Hn]; [done|]. intros [= <- <-]. simpl in *.
    unfold enter_room. destruct (sockets h !! s) eqn:Hs0; [by eauto|].
    destruct (decide (s = socket)) as [->|Hne].
    + rewrite lookup_insert_eq. intros [= <-]. by rewrite lookup_empty in Hl.
    + rewrite lookup_insert_ne by done. eauto.
  - destruct (handlers h !! c0) as [hd|] eqn:Hh; [|done]. destruct (h_live hd); [|done].
    destruct (decide (c0 ∈ _)); [done|]. intros [= <- <-]. simpl in *.
    destruct (decide (h_socket hd = socket)) as [<-|Hne].
    + rewrite lookup_insert_eq. intros [= <-].
      apply switch_on_type_clients, lookup_register in Hl as [Hl|[_ ->]].
      * unfold room in Hl. destruct (sockets h !! h_socket hd) eqn:Hs0; simpl in Hl.
        -- eauto.
        -- by rewrite lookup_empty in Hl.
      * unfold room_of. simpl. by rewrite lookup_insert_eq.
    + rewrite lookup_insert_ne by done. eauto.
  - destruct (handlers h !! c0) as [hd|] eqn:Hh; [|done]. destruct (h_live hd); [|done].
    intros [= <- <-]. simpl in *. eauto.
Qed.

(** Whatever a step writes goes to a connection accepted under the room of
    the handler that writes. *)
Lemma step_out_same_room h e h' out o :
  rooms_hold_own_conns h →
  step h e = Some (h', out) →
  o ∈ out →
  ∃ socket, room_of h' (sender_of e) = Some socket ∧
            room_of h' (receiver o) = Some socket.
Proof.
  intros Hinv Hstep Ho. pose proof Hstep as Hstep0.
  destruct e as [c0 s|c0 [f|] fails]; simpl in Hstep.
  - destruct (decide (c0 ∈ _)); [done|]. injection Hstep as <- <-.
    by apply elem_of_nil in Ho.
  - destruct (handlers h !! c0) as [hd|] eqn:Hh; [|done].
    destruct (h_live hd) eqn:Hlive; [|done].
    destruct (decide (c0 ∈ _)); [done|].
    injection Hstep as _ <-. exists (h_socket hd). split.
    { eapply step_room_of; [exact Hstep0|]. unfold room_of. simpl. by rewrite Hh. }
    apply switch_on_type_out in Ho as [[m ->]|(user & client & Hl & _ & ->)].
    { eapply step_room_of; [exact Hstep0|]. unfold room_of. simpl. by rewrite Hh. }
    simpl. apply lookup_register in Hl as [Hl|[_ ->]].
    + eapply step_room_of; [exact Hstep0|]. by eapply rooms_hold_own_conns_room.
    + eapply step_room_of; [exact Hstep0|]. unfold room_of. simpl. by rewrite Hh.
  - destruct (handlers h !! c0) as [hd|]; [|done]. destruct (h_live hd); [|done].
    injection Hstep as <- <-. by apply elem_of_nil in Ho.
Qed.

Lemma run_room_of evs h h' outs c socket :
  run evs h = Some (h', outs) →
  room_of h c = Some socket → room_of h' c = Some socket.
Proof.
  revert h outs. induction evs as [|e evs IH]; intros h outs; simpl.
  - by intros [= <- <-].
  - destruct (step h e) as [[h1 out]|] eqn:Hstep; [|done].
    destruct (run evs h1) as [[h2 outs2]|] eqn:Hrun; [|done].
    intros [= <- <-] Ha. eapply IH; [done|]. by eapply step_room_of.
Qed.

Lemma run_out_same_room evs h h' outs c o :
  rooms_hold_own_conns h →
  run evs h = Some (h', outs) →
  (c, o) ∈ outs →
  ∃ socket, room_of h' c = Some socket ∧ room_of h' (receiver o) = Some socket.
Proof.
  revert h outs. induction evs as [|e evs IH]; intros h outs Hinv; simpl.
  - intros [= <- <-] Hin. by apply elem_of_nil in Hin.
  - destruct (step h e) as [[h1 out]|] eqn:Hstep; [|done].
    destruct (run evs h1) as [[h2 outs2]|] eqn:Hrun; [|done].
    intros [= <- <-] Hin. apply elem_of_app in Hin as [Hin|Hin].
    + apply list_elem_of_fmap in Hin as (o' & [= -> ->] & Hin).
      destruct (step_out_same_room _ _ _ _ _ Hinv Hstep Hin) as (socket & Hs & Hr).
      exists socket. split; by eapply run_room_of.
    + eapply IH; [|done..]. by eapply step_rooms_hold_own_conns.
Qed.

(** C7: in every run from the initial hub (every interleaving of
    admissions, messages and read failures, over any number of rooms), when
    the handler of a connection accepted under key A writes a message to a
    connection accepted under key B, then A = B. *)
Theorem room_isolation evs h outs c o A B :
  run evs init = Some (h, outs) →
  (c, o) ∈ outs →
  room_of h c = Some A →
  room_of h (receiver o) = Some B →
  A = B.
Proof.
  intros Hrun Hin HA HB.
  destruct (run_out_same_room _ _ _ _ _ _ init_rooms_hold_own_conns Hrun Hin)
    as (socket & Hs & Hr).
  congruence.
Qed.

Lemma room_isolation_witness :
  let h := hub_after two_rooms in
  let o := Forward "b" 3 (mkMessage "offer" "a" "" "" "") in
  run two_rooms init = Some (h, two_rooms_writes) ∧ (1, o) ∈ two_rooms_writes ∧
  room_of h 1 = Some "r" ∧ room_of h 3 = Some "r" ∧ "r" = "r".
Proof.
  intros h o.
  assert (Hrun : run two_rooms init = Some (h, two_rooms_writes))
    by (vm_compute; reflexivity).
  assert (Hin : (1, o) ∈ two_rooms_writes).
  { do 4 apply list_elem_of_further. apply list_elem_of_here. }
  assert (HA : room_of h 1 = Some "r") by (vm_compute; reflexivity).
  assert (HB : room_of h (receiver o) = Some "r") by (vm_compute; reflexivity).
  split_and!; [done..|].
  exact (room_isolation two_rooms h two_rooms_writes 1 o "r" "r" Hrun Hin HA HB).
Defined.

End RelayFacts.

(** ** Part IV: properties of the session controllers *)

Module ControllersFacts.
Import Controllers.

(** *** Object ids and their hexadecimal form *)

Lemma decode_digits (b : Byte.byte) :
  match Hex.fromHexChar (Hex.digit (Byte.to_N b / 16)),
        Hex.fromHexChar (Hex.digit (Byte.to_N b mod 16)) with
  | Some h, Some l => Byte.of_N (h * 16 + l)
  | _, _ => None
  end = Some b.
Proof. destruct b; vm_compute; reflexivity. Qed.

Lemma DecodeString_EncodeToString bs :
  Hex.DecodeString (Hex.EncodeToString bs) = Some bs.
Proof.
  induction bs as [|b bs IH]; [done|].
  cbn [Hex.EncodeToString Hex.DecodeString]. rewrite IH.
  pose proof (decode_digits b) as Hb.
  destruct (Hex.fromHexChar (Hex.digit (Byte.to_N b / 16))) as [h|]; [|done].
  destruct (Hex.fromHexChar (Hex.digit (Byte.to_N b mod 16))) as [l|]; [|done].
  by rewrite Hb.
Qed.

Lemma length_EncodeToString bs :
  String.length (Hex.EncodeToString bs) = 2 * length bs.
Proof. induction bs as [|b bs IH]; simpl; [done|]. rewrite IH. lia. Qed.

(** The hexadecimal form of an id reads back as the id. *)
Lemma ObjectIDFromHex_Hex (oid : ObjectID) :
  length oid = 12 → ObjectIDFromHex (Hex oid) = Some oid.
Proof.
  intros Hl. unfold ObjectIDFromHex, Hex.
  rewrite length_EncodeToString, Hl. simpl.
  apply DecodeString_EncodeToString.
Qed.

Lemma Hex_inj (oid1 oid2 : ObjectID) : Hex oid1 = Hex oid2 → oid1 = oid2.
Proof.
  intros Heq. pose proof (DecodeString_EncodeToString oid1) as H1.
  unfold Hex in Heq. rewrite Heq, DecodeString_EncodeToString in H1. congruence.
Qed.

(** *** The documents [CreateSocket] writes *)

(** The three elements of such a document, and none under the key the
    filters of [ConnectSession] and [GetSession] name. *)
Lemma element_Marshal socket :
  element key_SessionID (Marshal socket) = Some (SessionID socket) ∧
  element key_HashedURL (Marshal socket) = Some (HashedURL socket) ∧
  element key_SocketURL (Marshal socket) = Some (SocketURL socket) ∧
  element "hashedUrl" (Marshal socket) = None.
Proof. split_and!; reflexivity. Qed.

(** [Decode] reads back what [Marshal] wrote. *)
Lemma Decode_Marshal socket : Decode (Marshal socket) zero_socket = socket.
Proof. by destruct socket. Qed.

(** *** What create-session calls leave in the database *)

Lemma find_session_id (l : list (ObjectID * Session)) oid session :
  NoDup (l.*1) → (oid, session) ∈ l →
  List.find (λ p, bool_decide (p.1 = oid)) l = Some (oid, session).
Proof.
  induction l as [|[o s] l IH]; simpl; [by intros _ ?%elem_of_nil|].
  intros Hnd Hin. apply NoDup_cons in Hnd as [Hni Hnd].
  apply elem_of_cons in Hin as [[= <- <-]|Hin].
  - by rewrite bool_decide_eq_true_2.
  - rewrite bool_decide_eq_false_2; [by apply IH|].
    intros ->. apply Hni. apply list_elem_of_fmap. by exists (oid, session).
Qed.

Lemma FindOne_document_Some db url doc :
  FindOne_document db url = Some doc →
  doc ∈ sockets db ∧ element "hashedUrl" doc = Some url.
Proof.
  unfold FindOne_document. intros [Hin Hb]%List.find_some.
  apply bool_decide_eq_true in Hb. split; [by apply list_elem_of_In|done].
Qed.

Lemma FindOne_document_None db url :
  FindOne_document db url = None ↔
  ∀ doc, doc ∈ sockets db → element "hashedUrl" doc ≠ Some url.
Proof.
  unfold FindOne_document. split.
  - intros Hf doc Hin%list_elem_of_In.
    pose proof (List.find_none _ _ Hf _ Hin) as Hb. simpl in Hb.
    by apply bool_decide_eq_false in Hb.
  - intros Hall. destruct (List.find _ _) as [s|] eqn:Hf; [|done].
    apply List.find_some in Hf as [Hin Hb]. apply bool_decide_eq_true in Hb.
    by destruct (Hall s (proj2 (list_elem_of_In _ _) Hin)).
Qed.

Section reachable.
Context {store : CredentialStore}.

Lemma CreateSession_Done inserted accepted body db db' w :
  CreateSession inserted accepted body db = Done (db', w) →
  (db' = db) ∨
  (∃ oid session, inserted = Some oid ∧ body = Bound session ∧
     (oid ∉ (sessions db).*1) ∧
     db' = CreateSocket_after accepted oid (stored session) db).
Proof.
  unfold CreateSession. destruct body as [err|session].
  - intros [= <- ?]. by left.
  - destruct inserted as [oid|]; [|done].
    destruct (decide (oid ∈ _)) as [|Hn]; [done|].
    destruct accepted; simpl; intros [= <- ?]; right; by exists oid, session.
Qed.

Lemma reachable_consistent db : reachable db → consistent db.
Proof.
  induction 1 as [|db inserted accepted body db' w Hr IH Hlen Hc].
  - split_and!; simpl.
    + constructor.
    + by intros p ?%elem_of_nil.
    + by intros s ?%elem_of_nil.
  - destruct IH as (Hnd & Hl & Hs).
    apply CreateSession_Done in Hc as [->|(oid & session & -> & -> & Hn & ->)]; [done|].
    assert (Hold : ∀ doc, doc ∈ sockets db →
              ∃ p, p ∈ sessions db ++ [(oid, stored session)] ∧ doc = written_for p).
    { intros doc Hin. destruct (Hs doc Hin) as (p & Hp & Heq). exists p.
      split; [|done]. apply elem_of_app. by left. }
    split_and!; simpl.
    + rewrite fmap_app. apply NoDup_app. split_and!; [done| |apply NoDup_singleton].
      intros x Hx ->%list_elem_of_singleton. done.
    + intros p [Hp| ->%list_elem_of_singleton]%elem_of_app; [by apply Hl|].
      by apply Hlen.
    + destruct accepted; [|exact Hold].
      intros doc [Hin| ->%list_elem_of_singleton]%elem_of_app; [by apply Hold|].
      exists (oid, stored session). split; [|done]. apply elem_of_app. right.
      by apply list_elem_of_singleton.
Qed.

(** The lookup of the handlers finds none of the documents that
    create-session calls wrote: they have the handle under [key_HashedURL],
    and the filter asks for the key "hashedUrl". *)
Lemma reachable_FindOne db url : reachable db → FindOne_document db url = None.
Proof.
  intros (_ & _ & Hs)%reachable_consistent. apply FindOne_document_None.
  intros doc Hin. destruct (Hs doc Hin) as (p & _ & ->). done.
Qed.

(** *** Joining *)

(** The answer of [ConnectSession] to a body that binds, case by case, in
    any database. *)
Lemma ConnectSession_cases db url input :
  wire (ConnectSession url (Bound input) db) =
    match FindOne_socket db url with
    | None => (StatusBadRequest, not_found)
    | Some socket =>
        match session_of db socket with
        | None => (StatusBadRequest, [[("error", "Session not found.")]])
        | Some session =>
            if ComparePasswords (Password session) (Password input)
            then (StatusOK, joined session socket)
            else (StatusBadRequest, invalid_password)
        end
    end.
Proof.
  unfold ConnectSession, session_of, FindOne_socket.
  destruct (FindOne_document db url) as [doc|]; simpl.
  - destruct (ObjectIDFromHex (SessionID _)) as [objectID|]; [|done].
    destruct (FindOne_session db objectID) as [session|]; [|done].
    by destruct (ComparePasswords _ _).
  - done.
Qed.

(** In a database built by create-session calls every join is answered as
    a join on an unknown target is. *)
Lemma reachable_ConnectSession db url input :
  reachable db →
  wire (ConnectSession url (Bound input) db) = (StatusBadRequest, not_found).
Proof.
  intros Hr. rewrite ConnectSession_cases. unfold FindOne_socket.
  by rewrite reachable_FindOne.
Qed.

(** The answer "Invalid password." takes a document with the key
    "hashedUrl", which [CreateSocket] does not write. *)
Lemma invalid_password_document db url input :
  body (ConnectSession url (Bound input) db) = invalid_password →
  ∃ doc, doc ∈ sockets db ∧ element "hashedUrl" doc = Some url.
Proof.
  intros Hb. assert (Hw : (wire (ConnectSession url (Bound input) db)).2 = invalid_password)
    by done.
  rewrite ConnectSession_cases in Hw. unfold FindOne_socket in Hw.
  destruct (FindOne_document db url) as [doc|] eqn:Hf; [|done].
  exists doc. by apply FindOne_document_Some.
Qed.

(** *** The answers to a wrong password and to an unknown target *)


(** *** Handles *)

Lemma session_unique db p q :
  consistent db → p ∈ sessions db → q ∈ sessions db →
  Hex p.1 = Hex q.1 → p = q.
Proof.
  intros (Hnd & _ & _) Hp Hq Heq%Hex_inj.
  destruct p as [o a], q as [o' b]. simpl in Heq. subst o'.
  pose proof (find_session_id _ _ _ Hnd Hp) as H1.
  pose proof (find_session_id _ _ _ Hnd Hq) as H2. congruence.
Qed.

(** C8, amended: after any sequence of create-session calls, whether the
    store took each socket insert or not, every socket document is the one
    written for exactly one stored session. When no two stored sessions
    have a host and a title that hash to the same handle, two documents
    with one handle carry one session id: the handle names one session.
    When no two stored sessions have a host and a stored password that
    hash to the same target, two documents with one target carry one
    handle. *)
Theorem handles_unique_without_collisions db :
  reachable db →
  (∀ doc, doc ∈ sockets db →
     ∃ p, p ∈ sessions db ∧ doc = written_for p ∧
          ∀ q, q ∈ sessions db →
               element key_SessionID doc = Some (Hex q.1) → q = p) ∧
  ((∀ p q, p ∈ sessions db → q ∈ sessions db →
           handle_of p.2 = handle_of q.2 → p = q) →
   ∀ d1 d2, d1 ∈ sockets db → d2 ∈ sockets db →
     element key_HashedURL d1 = element key_HashedURL d2 →
     element key_SessionID d1 = element key_SessionID d2) ∧
  ((∀ p q, p ∈ sessions db → q ∈ sessions db →
           target_of p.2 = target_of q.2 → p = q) →
   ∀ d1 d2, d1 ∈ sockets db → d2 ∈ sockets db →
     element key_SocketURL d1 = element key_SocketURL d2 →
     element key_HashedURL d1 = element key_HashedURL d2).
Proof.
  intros Hr. pose proof (reachable_consistent db Hr) as Hc.
  destruct Hc as (Hnd & Hl & Hs). split_and!.
  - intros doc Hin. destruct (Hs doc Hin) as (p & Hp & ->).
    exists p. split_and!; [done..|].
    intros q Hq [= Heq]. eapply session_unique; [by split_and!|done..].
  - intros Hinj d1 d2 Hd1 Hd2.
    destruct (Hs d1 Hd1) as (p & Hp & ->). destruct (Hs d2 Hd2) as (q & Hq & ->).
    intros [= Heq]. by rewrite (Hinj p q Hp Hq Heq).
  - intros Hinj d1 d2 Hd1 Hd2.
    destruct (Hs d1 Hd1) as (p & Hp & ->). destruct (Hs d2 Hd2) as (q & Hq & ->).
    intros [= Heq]. by rewrite (Hinj p q Hp Hq Heq).
Qed.

End reachable.

(** *** The probe *)

(** Without the "url" parameter [GetSession] panics and writes no
    response; with it, the handler returns, with status 200 when a document
    has the value under the key "hashedUrl", and with status 400 when none
    has. *)
Lemma GetSession_cases query db :
  match query !! "url" with
  | None | Some [] => GetSession query db = Panic
  | Some (id :: _) =>
      ∃ w, GetSession query db = Done w ∧
           (status w = 200 ∨ status w = 400) ∧
           (status w = 200 ↔
              ∃ doc, doc ∈ sockets db ∧ element "hashedUrl" doc = Some id) ∧
           (status w = 400 ↔
              ∀ doc, doc ∈ sockets db → element "hashedUrl" doc ≠ Some id)
  end.
Proof.
  unfold GetSession. destruct (query !! "url") as [[|id rest]|]; simpl; [done| |done].
  destruct (FindOne_document db id) as [doc|] eqn:Hf.
  - eexists. split; [done|]. simpl.
    apply (FindOne_document_Some) in Hf as [Hin Hh].
    split_and!; [by left| |].
    + split; [|done]. intros _. by exists doc.
    + split; [done|]. intros Hall. by destruct (Hall doc Hin).
  - eexists. split; [done|]. simpl.
    pose proof (proj1 (FindOne_document_None db id) Hf) as Hall.
    split_and!; [by right| |].
    + split; [done|]. intros (doc & Hin & Hh). by destruct (Hall doc Hin).
    + done.
Qed.

(** *** The scenario of section 8 *)

Lemma hashSession_abc : hashSession "abc" = "a9993e364706816aba3e25717850c26c9cd0d89d".
Proof. vm_compute. reflexivity. Qed.

Lemma standup_handle_eq : hashSession "h1Standup" = standup_handle.
Proof. vm_compute. reflexivity. Qed.


Lemma standup_retro_db_eq :
  standup_retro_db =
  mkDb [(oid1, mkSession "h1" "Standup" "hash:p1");
        (oid2, mkSession "h1" "Retro" "hash:p2")]
       [[("sessionid", "000000000000000000000001");
         ("hashedurl", standup_handle);
         ("socketurl", "833a397a21b43ef0fb6a3f8045e88a8367055e76")];
        [("sessionid", "000000000000000000000002");
         ("hashedurl", "1f384ec185ba74a320d9f716e20c5d53de8bc90c");
         ("socketurl", "ca99870b9601d9c84ee30415a73571231d443d52")]].
Proof. vm_compute. reflexivity. Qed.

Lemma reachable_standup_db : reachable (store := prefix_store) standup_db.
Proof.
  eapply (reachable_create (store := prefix_store) empty_db (Some oid1) true
            (Bound (mkSession "h1" "Standup" "p1")) standup_db
            (JSON StatusOK [("socket", standup_handle)] new_writer)).
  - constructor.
  - by intros oid [= <-].
  - vm_compute. reflexivity.
Defined.

Lemma reachable_standup_twice_db : reachable (store := prefix_store) standup_twice_db.
Proof.
  eapply (reachable_create (store := prefix_store) standup_db (Some oid2) true
            (Bound (mkSession "h1" "Standup" "p2")) standup_twice_db
            (JSON StatusOK [("socket", standup_handle)] new_writer)).
  - exact reachable_standup_db.
  - by intros oid [= <-].
  - vm_compute. reflexivity.
Defined.

Lemma reachable_standup_retro_db : reachable (store := prefix_store) standup_retro_db.
Proof.
  eapply (reachable_create (store := prefix_store) standup_db (Some oid2) true
            (Bound (mkSession "h1" "Retro" "p2")) standup_retro_db
            (JSON StatusOK [("socket", "1f384ec185ba74a320d9f716e20c5d53de8bc90c")]
               new_writer)).
  - exact reachable_standup_db.
  - by intros oid [= <-].
  - vm_compute. reflexivity.
Defined.



(** C5, on the code: host h1 creates "Standup" with password p1 and is
    answered 200 with the handle; the session and its socket document are
    stored. The join on that handle with the password p1 is answered 400
    with the errors "Socket connection not found." and
    "Session not found.", and no title or socket URL: the document has the
    handle under the key "hashedurl", and line 21 looks for the key
    "hashedUrl". *)
Theorem join_after_create_not_found :
  CreateSession (store := prefix_store) (Some oid1) true
    (Bound (mkSession "h1" "Standup" "p1")) empty_db
  = Done (standup_db, JSON StatusOK [("socket", standup_handle)] new_writer) ∧
  sessions standup_db = [(oid1, mkSession "h1" "Standup" "hash:p1")] ∧
  sockets standup_db =
    [[("sessionid", "000000000000000000000001");
      ("hashedurl", standup_handle);
      ("socketurl", "833a397a21b43ef0fb6a3f8045e88a8367055e76")]] ∧
  ComparePasswords (CredentialStore := prefix_store) "hash:p1" "p1" = true ∧
  FindOne_document standup_db standup_handle = None ∧
  wire (ConnectSession (store := prefix_store) standup_handle (password "p1") standup_db)
  = (400, [[("error", "Socket connection not found.")];
           [("error", "Session not found.")]]).
Proof. split_and!; vm_compute; reflexivity. Qed.


(** C8, as stated, fails: host h1 creates "Standup" twice, with passwords
    p1 and p2, and the store takes every insert. The socket collection then
    holds two documents under one room handle, for two sessions. *)
Lemma handle_uniqueness_counterexample :
  sockets standup_twice_db =
  [[("sessionid", "000000000000000000000001");
    ("hashedurl", standup_handle);
    ("socketurl", "833a397a21b43ef0fb6a3f8045e88a8367055e76")];
   [("sessionid", "000000000000000000000002");
    ("hashedurl", standup_handle);
    ("socketurl", "ca99870b9601d9c84ee30415a73571231d443d52")]] ∧
  sessions standup_twice_db =
  [(oid1, mkSession "h1" "Standup" "hash:p1");
   (oid2, mkSession "h1" "Standup" "hash:p2")].
Proof. split; vm_compute; reflexivity. Qed.

(** The store refuses the socket insert: the call is answered 200 with the
    handle all the same, and the session is left without a document. *)
Lemma socket_insert_refused :
  CreateSession (store := prefix_store) (Some oid1) false
    (Bound (mkSession "h1" "Standup" "p1")) empty_db
  = Done (mkDb [(oid1, mkSession "h1" "Standup" "hash:p1")] [],
          JSON StatusOK [("socket", standup_handle)] new_writer).
Proof. vm_compute. reflexivity. Qed.

Lemma no_collision_standup_retro (f : Session → string) :
  f (mkSession "h1" "Standup" "hash:p1") ≠ f (mkSession "h1" "Retro" "hash:p2") →
  ∀ p q, p ∈ sessions standup_retro_db → q ∈ sessions standup_retro_db →
         f p.2 = f q.2 → p = q.
Proof.
  intros Hne p q. rewrite standup_retro_db_eq. simpl.
  intros [->|[->|[]%elem_of_nil]%elem_of_cons]%elem_of_cons
         [->|[->|[]%elem_of_nil]%elem_of_cons]%elem_of_cons; simpl; intros Heq;
    try done; by destruct Hne.
Defined.

Lemma handles_unique_without_collisions_witness :
  reachable (store := prefix_store) standup_retro_db ∧
  (∀ p q, p ∈ sessions standup_retro_db → q ∈ sessions standup_retro_db →
          handle_of p.2 = handle_of q.2 → p = q) ∧
  ∀ d1 d2, d1 ∈ sockets standup_retro_db → d2 ∈ sockets standup_retro_db →
    element key_HashedURL d1 = element key_HashedURL d2 →
    element key_SessionID d1 = element key_SessionID d2.
Proof.
  assert (Hinj : ∀ p q, p ∈ sessions standup_retro_db → q ∈ sessions standup_retro_db →
                        handle_of p.2 = handle_of q.2 → p = q).
  { apply (no_collision_standup_retro handle_of). vm_compute. discriminate. }
  split; [exact reachable_standup_retro_db|]. split; [exact Hinj|].
  destruct (handles_unique_without_collisions (store := prefix_store) standup_retro_db
              reachable_standup_retro_db) as (_ & Hh & _).
  exact (Hh Hinj).
Defined.

(** C10, on the code: after host h1 created "Standup", the socket
    collection holds a document with the handle; the probe with that handle
    as "url" is answered 400 "Socket connection not found.", where the
    claim has 200: line 68 looks for the key "hashedUrl", and the document
    has the handle under "hashedurl". *)
Theorem probe_after_create_not_found :
  (element key_HashedURL <$> sockets standup_db) = [Some standup_handle] ∧
  FindOne_document standup_db standup_handle = None ∧
  GetSession {[ "url" := [standup_handle] ]} standup_db
  = Done (JSON 400 [("error", "Socket connection not found.")] new_writer) ∧
  GetSession ∅ standup_db = Panic.
Proof. split_and!; vm_compute; reflexivity. Qed.

(** With a document that has the handle under the key "hashedUrl" the
    handlers answer as sections 4 and 8 have it. *)
Lemma camel_db_answers :
  wire (ConnectSession (store := prefix_store) standup_handle (password "p1") camel_db)
  = (200, [[("title", "Standup");
            ("socket", "833a397a21b43ef0fb6a3f8045e88a8367055e76")]]) ∧
  wire (ConnectSession (store := prefix_store) standup_handle (password "wrong") camel_db)
  = (400, [[("error", "Invalid password.")]]) ∧
  GetSession {[ "url" := [standup_handle] ]} camel_db = Done (Status 200 new_writer).
Proof. split_and!; vm_compute; reflexivity. Qed.

End ControllersFacts.

(** ** Part V: more on one iteration of [wshandler] *)

Module IterFacts.
Import Relay RelayFacts RelayWrites.

(** *** What a loop writes, in order *)

Section range_writes.
Context (skip : string → bool) (close_on_err : bool)
        (message : Message) (fails : conn → bool).

Local Abbreviation body := (range_body skip close_on_err message fails).
Local Abbreviation served := (RelayWrites.served skip fails).
Local Abbreviation forward_to := (RelayWrites.forward_to message).

Lemma foldl_body_out_eq es clients cl out clients' cl' out' :
  foldl body (clients, cl, out) es = (clients', cl', out') →
  out' = out ++ (forward_to <$> List.filter (served cl) es).
Proof.
  revert clients cl out. induction es as [|[u0 c0] es IH]; intros clients cl out.
  - simpl. intros [= <- <- <-]. by rewrite app_nil_r.
  - cbn [foldl]. destruct (body (clients, cl, out) (u0, c0)) as [[clients1 cl1] out1] eqn:Hb.
    intros Hf. rewrite (IH _ _ _ Hf).
    assert (Hwf : ∀ c, WriteJSON cl1 fails c = WriteJSON cl fails c)
      by (intros c; apply (body_write_fails _ _ _ _ _ _ _ _ _ _ Hb)).
    assert (Hs : List.filter (served cl1) es = List.filter (served cl) es).
    { apply List.filter_ext. intros e. unfold RelayWrites.served, Send. by rewrite Hwf. }
    rewrite Hs. clear IH Hf Hwf Hs. simpl in Hb. unfold RelayWrites.served at 2. simpl.
    destruct (skip u0); simpl.
    { by injection Hb as <- <- <-. }
    destruct (Send cl fails c0); simpl.
    + by injection Hb as <- <- <-.
    + injection Hb as <- <- <-. by rewrite <- app_assoc.
Qed.

End range_writes.

Lemma range_send_out_eq skip coe message fails clients cl clients' cl' out' :
  range_send skip coe message fails clients cl = (clients', cl', out') →
  out' = forward_to message <$> List.filter (served skip fails cl) (map_to_list clients).
Proof.
  unfold range_send. intros Hf.
  by rewrite (foldl_body_out_eq _ _ _ _ _ _ _ _ _ _ _ Hf).
Qed.

(** No entry is written to twice by one loop. *)
Lemma range_send_out_NoDup skip coe message fails clients cl clients' cl' out' :
  range_send skip coe message fails clients cl = (clients', cl', out') →
  NoDup out'.
Proof.
  intros ->%range_send_out_eq.
  apply (NoDup_fmap_1 addressee). rewrite <- list_fmap_compose.
  assert (Hnd : NoDup ((map_to_list clients).*1)) by apply NoDup_fst_map_to_list.
  revert Hnd. generalize (map_to_list clients). intros l.
  induction l as [|e l IH]; simpl; [constructor|].
  intros [Hni Hnd]%NoDup_cons. destruct (served skip fails cl e); simpl; [|by apply IH].
  apply NoDup_cons. split; [|by apply IH].
  intros (e' & He & Hin)%list_elem_of_fmap. apply Hni.
  apply list_elem_of_fmap. exists e'. split; [done|].
  apply list_elem_of_In in Hin. apply List.filter_In in Hin as [Hin _].
  by apply list_elem_of_In.
Qed.

Lemma filter_eq_absent `{EqDecision A} (l : list A) (x : A) :
  x ∉ l → filter (λ y, y = x) l = [].
Proof.
  induction l as [|y l IH]; [done|].
  intros [Hne Hni]%not_elem_of_cons. rewrite filter_cons.
  destruct (decide (y = x)); [congruence|by apply IH].
Qed.

Lemma NoDup_filter_eq_length `{EqDecision A} (l : list A) (x : A) :
  NoDup l → x ∈ l → length (filter (λ y, y = x) l) = 1.
Proof.
  induction l as [|y l IH]; [by intros _ ?%elem_of_nil|].
  intros [Hni Hnd]%NoDup_cons Hin. rewrite filter_cons.
  destruct (decide (y = x)) as [->|Hne].
  - simpl. by rewrite filter_eq_absent.
  - apply elem_of_cons in Hin as [->|Hin]; [done|]. by apply IH.
Qed.

Lemma lookup_register_ne c message clients user :
  user ≠ UserID message →
  register c message clients !! user = clients !! user.
Proof.
  intros Hne. unfold register. destruct (clients !! UserID message); [done|].
  by rewrite lookup_insert_ne.
Qed.

Lemma lookup_register_eq c message clients :
  register c message clients !! UserID message =
  Some (default (mkConnection c) (clients !! UserID message)).
Proof.
  unfold register. destruct (clients !! UserID message) eqn:Hl; simpl; [done|].
  by rewrite lookup_insert_eq.
Qed.

(** *** The connect case *)

(** X1: a connect message is answered on the sender's own connection with
    the same message retyped "session_joined", and nobody else is written
    to; the entries of the other members are left as they are. When the
    answer cannot be written, the sender's id is removed from the room,
    whichever connection it was bound to. *)
Theorem connect_acknowledges_sender_only c message fails clients cl :
  Type_ message = "connect" →
  let it := wshandler_iter c message fails clients cl in
  i_message it = set_type "session_joined" message ∧
  i_closed it = cl ∧
  (∀ user, user ≠ UserID message → i_clients it !! user = clients !! user) ∧
  (if WriteJSON cl fails c
   then i_out it = [] ∧ i_clients it !! UserID message = None
   else i_out it = [Reply c (set_type "session_joined" message)] ∧
        i_clients it !! UserID message =
          Some (default (mkConnection c) (clients !! UserID message))).
Proof.
  intros Ht. unfold wshandler_iter, switch_on_type. rewrite decide_True by done.
  destruct (WriteJSON cl fails c); simpl.
  - split; [done|]. split; [done|]. split.
    + intros user Hne. rewrite lookup_delete_ne by done. by apply lookup_register_ne.
    + split; [done|]. apply lookup_delete_eq.
  - split; [done|]. split; [done|]. split.
    + intros user Hne. by apply lookup_register_ne.
    + split; [done|]. apply lookup_register_eq.
Qed.

Lemma connect_acknowledges_sender_only_witness :
  let message := mkMessage "connect" "b" "" "" "" in
  let it := wshandler_iter 2 message fine {[ "a" := mkConnection 1 ]} ∅ in
  Type_ message = "connect" ∧
  i_out it = [Reply 2 (mkMessage "session_joined" "b" "" "" "")] ∧
  i_clients it !! "a" = Some (mkConnection 1).
Proof.
  intros message it.
  destruct (connect_acknowledges_sender_only 2 message fine
              {[ "a" := mkConnection 1 ]} ∅ eq_refl) as (_ & _ & Hothers & Hack).
  split; [reflexivity|]. split.
  - exact (proj1 Hack).
  - unfold it. rewrite (Hothers "a"); [reflexivity|discriminate].
Defined.

(** *** Relaying *)

(** X2: a message of any type other than connect is written exactly once
    to each entry of the room other than the sender's whose connection takes
    the write, and the message written is the one received, field by
    field. *)
Theorem relay_delivers_once c message fails clients cl user client :
  Type_ message ≠ "connect" →
  register c message clients !! user = Some client →
  user ≠ UserID message →
  Send cl fails client = false →
  length (filter (λ o, o = Forward user (Socket client) message)
            (i_out (wshandler_iter c message fails clients cl))) = 1.
Proof.
  intros Ht Hl Hu Hs.
  assert (Hgen : ∀ coe clients' cl' out',
    range_send (λ user, bool_decide (user = UserID message)) coe message fails
      (register c message clients) cl = (clients', cl', out') →
    length (filter (λ o, o = Forward user (Socket client) message) out') = 1).
  { intros coe clients' cl' out' Hr. apply NoDup_filter_eq_length.
    - by eapply range_send_out_NoDup.
    - apply (range_send_out _ _ _ _ _ _ _ _ _ _ Hr). exists user, client.
      split_and!; [done| |done..]. by apply bool_decide_eq_false. }
  unfold wshandler_iter, switch_on_type. rewrite decide_False by done.
  destruct (decide (Type_ message = "disconnect")).
  - destruct (range_send _ true _ _ _ _) as [[clients' cl'] out'] eqn:Hr.
    simpl. by eapply Hgen.
  - destruct (range_send _ false _ _ _ _) as [[clients' cl'] out'] eqn:Hr.
    simpl. by eapply Hgen.
Qed.

Lemma relay_delivers_once_witness :
  let message := mkMessage "offer" "a" "sdp" "" "" in
  let clients : gmap string Connection :=
    {[ "a" := mkConnection 1; "b" := mkConnection 2 ]} in
  Type_ message ≠ "connect" ∧
  register 1 message clients !! "b" = Some (mkConnection 2) ∧
  length (filter (λ o, o = Forward "b" 2 message)
            (i_out (wshandler_iter 1 message fine clients ∅))) = 1.
Proof.
  intros message clients.
  assert (Hl : register 1 message clients !! "b" = Some (mkConnection 2))
    by (vm_compute; reflexivity).
  split; [discriminate|]. split; [exact Hl|].
  apply (relay_delivers_once 1 message fine clients ∅ "b" (mkConnection 2));
    [discriminate | exact Hl | discriminate | reflexivity].
Defined.

(** X3: a disconnect message removes the id it names from the room,
    whichever connection sent it; every other entry stays exactly when its
    connection took the write, and the connections that refused it are
    closed. *)
Theorem leave_removes_member c message fails clients cl :
  Type_ message = "disconnect" →
  let it := wshandler_iter c message fails clients cl in
  i_clients it !! UserID message = None ∧
  (∀ user client, user ≠ UserID message →
     i_clients it !! user = Some client ↔
     clients !! user = Some client ∧ Send cl fails client = false) ∧
  (∀ d, d ∈ i_closed it ↔
     d ∈ cl ∨ ∃ user client, clients !! user = Some client ∧
                             user ≠ UserID message ∧
                             Send cl fails client = true ∧ Socket client = d).
Proof.
  intros Ht. unfold wshandler_iter, switch_on_type.
  rewrite decide_False by (rewrite Ht; discriminate).
  rewrite decide_True by done.
  destruct (range_send _ true _ _ _ _) as [[clients' cl'] out'] eqn:Hr. simpl.
  split_and!.
  - apply lookup_delete_eq.
  - intros user client Hne. rewrite lookup_delete_ne by done.
    rewrite (range_send_clients _ _ _ _ _ _ _ _ _ _ _ Hr).
    rewrite lookup_register_ne by done.
    rewrite bool_decide_eq_false_2 by done.
    destruct (Send cl fails client); naive_solver.
  - intros d. rewrite (range_send_closed _ _ _ _ _ _ _ _ _ _ Hr). split.
    + intros [?|(_ & user & client & Hl & Hs%bool_decide_eq_false & Hw & Hd)]; [by left|].
      right. exists user, client. rewrite lookup_register_ne in Hl by done. done.
    + intros [?|(user & client & Hl & Hne & Hw & Hd)]; [by left|].
      right. split; [done|]. exists user, client.
      rewrite lookup_register_ne by done. split_and!; [done| |done..].
      by apply bool_decide_eq_false.
Qed.

Lemma leave_removes_member_witness :
  let message := mkMessage "disconnect" "a" "" "" "" in
  let it := wshandler_iter 1 message fine
              {[ "a" := mkConnection 1; "b" := mkConnection 2 ]} ∅ in
  Type_ message = "disconnect" ∧
  i_clients it !! "a" = None ∧ i_clients it !! "b" = Some (mkConnection 2).
Proof.
  intros message it.
  destruct (leave_removes_member 1 message fine
              {[ "a" := mkConnection 1; "b" := mkConnection 2 ]} ∅ eq_refl)
    as (Hgone & Hothers & _).
  split; [reflexivity|]. split; [exact Hgone|].
  apply Hothers; [discriminate|]. split; reflexivity.
Defined.

(** X4: relaying a message of a type other than connect and disconnect
    deletes from the room exactly the other members whose connection refuses
    the write; it closes no connection, and the sender's entry stays. *)
Theorem relay_prunes_failed_peers c message fails clients cl :
  Type_ message ≠ "connect" →
  Type_ message ≠ "disconnect" →
  let it := wshandler_iter c message fails clients cl in
  i_closed it = cl ∧
  ∀ user client,
    i_clients it !! user = Some client ↔
    register c message clients !! user = Some client ∧
    (user = UserID message ∨ Send cl fails client = false).
Proof.
  intros Hc Hd. unfold wshandler_iter, switch_on_type.
  rewrite !decide_False by done.
  destruct (range_send _ false _ _ _ _) as [[clients' cl'] out'] eqn:Hr. simpl.
  split.
  - apply set_eq. intros d. rewrite (range_send_closed _ _ _ _ _ _ _ _ _ _ Hr).
    naive_solver.
  - intros user client. rewrite (range_send_clients _ _ _ _ _ _ _ _ _ _ _ Hr).
    destruct (decide (user = UserID message)) as [->|Hne].
    + rewrite bool_decide_eq_true_2 by done. naive_solver.
    + rewrite bool_decide_eq_false_2 by done.
      destruct (Send cl fails client); naive_solver.
Qed.

Lemma relay_prunes_failed_peers_witness :
  let message := mkMessage "offer" "a" "" "" "" in
  let broken : conn → bool := λ d, bool_decide (d = 2) in
  let it := wshandler_iter 1 message broken
              {[ "a" := mkConnection 1; "b" := mkConnection 2 ]} ∅ in
  Type_ message ≠ "connect" ∧ Type_ message ≠ "disconnect" ∧
  i_closed it = ∅ ∧ i_clients it !! "a" = Some (mkConnection 1).
Proof.
  intros message broken it.
  destruct (relay_prunes_failed_peers 1 message broken
              {[ "a" := mkConnection 1; "b" := mkConnection 2 ]} ∅)
    as (Hcl & Hm); [discriminate..|].
  split; [discriminate|]. split; [discriminate|]. split; [exact Hcl|].
  apply Hm. split; [reflexivity|]. by left.
Defined.

(** X5: a participant id stays bound to the connection that first used it.
    A message under an id that is already in the room does not rebind the
    id to the connection it arrives on: unless it is a disconnect, or a
    connect whose answer cannot be written, the entry is afterwards what it
    was before. *)
Theorem first_binding_kept c message fails clients cl client0 :
  clients !! UserID message = Some client0 →
  Type_ message ≠ "disconnect" →
  (Type_ message = "connect" → WriteJSON cl fails c = false) →
  i_clients (wshandler_iter c message fails clients cl) !! UserID message
  = Some client0.
Proof.
  intros Hl Hd Hc. unfold wshandler_iter, switch_on_type.
  assert (Hr0 : register c message clients !! UserID message = Some client0).
  { by rewrite lookup_register_eq, Hl. }
  destruct (decide (Type_ message = "connect")) as [Ht|Ht].
  - rewrite (Hc Ht). done.
  - rewrite decide_False by done.
    destruct (range_send _ false _ _ _ _) as [[clients' cl'] out'] eqn:Hr. simpl.
    apply (range_send_clients _ _ _ _ _ _ _ _ _ _ _ Hr). split; [done|].
    intros [Hs _]. by rewrite bool_decide_eq_true_2 in Hs.
Qed.

Lemma first_binding_kept_witness :
  let message := mkMessage "offer" "a" "" "" "" in
  let clients : gmap string Connection :=
    {[ "a" := mkConnection 1; "b" := mkConnection 2 ]} in
  clients !! "a" = Some (mkConnection 1) ∧
  i_clients (wshandler_iter 2 message fine clients ∅) !! "a" = Some (mkConnection 1).
Proof.
  intros message clients.
  assert (Hl : clients !! UserID message = Some (mkConnection 1))
    by (vm_compute; reflexivity).
  split; [exact Hl|].
  apply (first_binding_kept 2 message fine clients ∅ (mkConnection 1) Hl);
    discriminate.
Defined.

(** *** The handler without the guard *)

(** X9: the second [wshandler] treats every entry other than the sender's
    as the first does: for a message of a type other than connect, the same
    entries are written to and the same entries are kept. The two differ
    only in what happens to the sender's own entry. *)
Theorem unguarded_agrees_on_others c message fails clients cl user :
  Type_ message ≠ "connect" →
  user ≠ UserID message →
  let g := wshandler_iter c message fails clients cl in
  let u := wshandler_iter_unguarded c message fails clients cl in
  i_clients u !! user = i_clients g !! user ∧
  ∀ d m, Forward user d m ∈ i_out u ↔ Forward user d m ∈ i_out g.
Proof.
  intros Ht Hne.
  assert (Hgen : ∀ coe cg clg og cu clu ou,
    range_send (λ user, bool_decide (user = UserID message)) coe message fails
      (register c message clients) cl = (cg, clg, og) →
    range_send (λ _, false) coe message fails
      (register c message clients) cl = (cu, clu, ou) →
    cu !! user = cg !! user ∧
    ∀ d m, Forward user d m ∈ ou ↔ Forward user d m ∈ og).
  { intros coe cg clg og cu clu ou Hg Hu. split.
    - apply option_eq. intros client.
      rewrite (range_send_clients _ _ _ _ _ _ _ _ _ _ _ Hg).
      rewrite (range_send_clients _ _ _ _ _ _ _ _ _ _ _ Hu).
      rewrite bool_decide_eq_false_2 by done. done.
    - intros d m.
      rewrite (range_send_out _ _ _ _ _ _ _ _ _ _ Hg).
      rewrite (range_send_out _ _ _ _ _ _ _ _ _ _ Hu). split.
      + intros (u0 & c0 & Hl & _ & Hw & [= -> -> ->]). exists u0, c0.
        split_and!; [done| |done..]. by apply bool_decide_eq_false.
      + intros (u0 & c0 & Hl & _ & Hw & [= -> -> ->]). by exists u0, c0. }
  cbv zeta. unfold wshandler_iter, wshandler_iter_unguarded, switch_on_type.
  destruct (decide (Type_ message = "connect")); [done|].
  destruct (decide (Type_ message = "disconnect")).
  - destruct (range_send (λ user0, bool_decide (user0 = UserID message)) true _ _ _ _)
      as [[cg clg] og] eqn:Hg.
    destruct (range_send (λ _, false) true _ _ _ _) as [[cu clu] ou] eqn:Hu.
    simpl. destruct (Hgen _ _ _ _ _ _ _ Hg Hu) as [H1 H2].
    split; [|exact H2]. rewrite !lookup_delete_ne by done. exact H1.
  - destruct (range_send (λ user0, bool_decide (user0 = UserID message)) false _ _ _ _)
      as [[cg clg] og] eqn:Hg.
    destruct (range_send (λ _, false) false _ _ _ _) as [[cu clu] ou] eqn:Hu.
    simpl. exact (Hgen _ _ _ _ _ _ _ Hg Hu).
Qed.

Lemma unguarded_agrees_on_others_witness :
  let message := mkMessage "offer" "a" "" "" "" in
  let clients : gmap string Connection :=
    {[ "a" := mkConnection 1; "b" := mkConnection 2 ]} in
  Type_ message ≠ "connect" ∧ "b" ≠ UserID message ∧
  i_clients (wshandler_iter_unguarded 1 message fine clients ∅) !! "b"
  = i_clients (wshandler_iter 1 message fine clients ∅) !! "b".
Proof.
  intros message clients. split; [discriminate|]. split; [discriminate|].
  exact (proj1 (unguarded_agrees_on_others 1 message fine clients ∅ "b"
                  ltac:(discriminate) ltac:(discriminate))).
Defined.

End IterFacts.

(** ** Part VI: more on the hub *)

Module HubFacts.
Import Relay RelayFacts IterFacts.

(** Every write of the [switch] is one that the connection took. *)
Lemma switch_on_type_out_taken skip c message fails clients cl o :
  o ∈ i_out (switch_on_type skip c message fails clients cl) →
  WriteJSON cl fails (receiver o) = false.
Proof.
  unfold switch_on_type.
  destruct (decide (Type_ message = "connect")) as [Ht|Ht].
  { destruct (WriteJSON cl fails c) eqn:Hw; simpl; [by intros ?%elem_of_nil|].
    by intros ->%list_elem_of_singleton. }
  destruct (decide (Type_ message = "disconnect")) as [Hd|Hd].
  - destruct (range_send skip true message fails clients cl) as [[clients' cl'] out'] eqn:Hr.
    simpl. intros Ho. apply (range_send_out _ _ _ _ _ _ _ _ _ _ Hr) in Ho.
    by destruct Ho as (user & client & _ & _ & Hw & ->).
  - destruct (range_send skip false message fails clients cl) as [[clients' cl'] out'] eqn:Hr.
    simpl. intros Ho. apply (range_send_out _ _ _ _ _ _ _ _ _ _ Hr) in Ho.
    by destruct Ho as (user & client & _ & _ & Hw & ->).
Qed.

(** The [switch] closes connections, it never reopens one. *)
Lemma switch_on_type_closed_mono skip c message fails clients cl d :
  d ∈ cl → d ∈ i_closed (switch_on_type skip c message fails clients cl).
Proof.
  intros Hd. unfold switch_on_type.
  destruct (decide (Type_ message = "connect")) as [Ht|Ht].
  { by destruct (WriteJSON cl fails c). }
  destruct (decide (Type_ message = "disconnect")).
  - destruct (range_send skip true message fails clients cl) as [[clients' cl'] out'] eqn:Hr.
    simpl. apply (range_send_closed _ _ _ _ _ _ _ _ _ _ Hr). by left.
  - destruct (range_send skip false message fails clients cl) as [[clients' cl'] out'] eqn:Hr.
    simpl. apply (range_send_closed _ _ _ _ _ _ _ _ _ _ Hr). by left.
Qed.

Lemma step_closed_mono h e h' out d :
  step h e = Some (h', out) → d ∈ closed h → d ∈ closed h'.
Proof.
  destruct e as [c0 s|c0 [f|] fails]; simpl.
  - destruct (decide (c0 ∈ _)); [done|]. by intros [= <- <-].
  - destruct (handlers h !! c0) as [hd|]; [|done]. destruct (h_live hd); [|done].
    destruct (decide (c0 ∈ _)); [done|]. intros [= <- <-]. simpl.
    apply switch_on_type_closed_mono.
  - destruct (handlers h !! c0) as [hd|]; [|done]. destruct (h_live hd); [|done].
    intros [= <- <-]. simpl. set_solver.
Qed.

Lemma step_out_open h e h' out o :
  step h e = Some (h', out) → o ∈ out → receiver o ∉ closed h.
Proof.
  destruct e as [c0 s|c0 [f|] fails]; simpl.
  - destruct (decide (c0 ∈ _)); [done|]. by intros [= <- <-] ?%elem_of_nil.
  - destruct (handlers h !! c0) as [hd|]; [|done]. destruct (h_live hd); [|done].
    destruct (decide (c0 ∈ _)); [done|]. intros [= <- <-] Ho.
    apply switch_on_type_out_taken in Ho. unfold WriteJSON in Ho.
    apply orb_false_iff in Ho as [Ho _]. by apply bool_decide_eq_false in Ho.
  - destruct (handlers h !! c0) as [hd|]; [|done]. destruct (h_live hd); [|done].
    by intros [= <- <-] ?%elem_of_nil.
Qed.

(** X7: once a connection is closed on the server side (its handler has
    returned, or a disconnect relay found it broken), nothing is ever
    written to it again, in any run. *)
Theorem closed_never_written evs h h' outs c s o :
  run evs h = Some (h', outs) →
  c ∈ closed h →
  (s, o) ∈ outs →
  receiver o ≠ c.
Proof.
  revert h outs. induction evs as [|e evs IH]; intros h outs; simpl.
  - by intros [= <- <-] _ ?%elem_of_nil.
  - destruct (step h e) as [[h1 out]|] eqn:Hstep; [|done].
    destruct (run evs h1) as [[h2 outs2]|] eqn:Hrun; [|done].
    intros [= <- <-] Hc [Hin|Hin]%elem_of_app.
    + apply list_elem_of_fmap in Hin as (o' & [= -> ->] & Hin).
      intros Heq. subst c. by eapply step_out_open.
    + eapply IH; [done| |done]. by eapply step_closed_mono.
Qed.

Lemma closed_never_written_witness :
  let h := hub_after (three_joined ++ [Read 1 None fine]) in
  let e := Read 2 (Some (frame "offer" "b" None)) fine in
  let h' := hub_after (three_joined ++ [Read 1 None fine; e]) in
  let o := Forward "c" 3 (mkMessage "offer" "b" "" "" "") in
  1 ∈ closed h ∧ run [e] h = Some (h', [(2, o)]) ∧ receiver o ≠ 1.
Proof.
  intros h e h' o.
  assert (Hc : 1 ∈ closed h) by (vm_compute; set_solver).
  assert (Hrun : run [e] h = Some (h', [(2, o)])) by (vm_compute; reflexivity).
  split; [exact Hc|]. split; [exact Hrun|].
  apply (closed_never_written [e] h h' [(2, o)] 1 2 o Hrun Hc).
  apply list_elem_of_here.
Defined.

(** X6: handling an event of a connection of room A changes the member set
    of no other room. *)
Theorem other_rooms_untouched h e h' out A k :
  step h e = Some (h', out) →
  room_of h' (sender_of e) = Some A →
  k ≠ A →
  room h' k = room h k.
Proof.
  unfold room_of, room. destruct e as [c0 s|c0 [f|] fails]; simpl.
  - destruct (decide (c0 ∈ _)); [done|]. intros [= <- <-]. simpl.
    rewrite lookup_insert_eq. intros [= <-] Hk. unfold enter_room.
    destruct (sockets h !! s); [done|]. by rewrite lookup_insert_ne.
  - destruct (handlers h !! c0) as [hd|]; [|done]. destruct (h_live hd); [|done].
    destruct (decide (c0 ∈ _)); [done|]. intros [= <- <-]. simpl.
    rewrite lookup_insert_eq. intros [= <-] Hk. by rewrite lookup_insert_ne.
  - destruct (handlers h !! c0) as [hd|]; [|done]. destruct (h_live hd); [|done].
    by intros [= <- <-].
Qed.

Lemma other_rooms_untouched_witness :
  let h := hub_after two_rooms in
  let e := Read 1 (Some (frame "disconnect" "a" None)) fine in
  ∃ h' out, step h e = Some (h', out) ∧ room_of h' 1 = Some "r" ∧
            room h' "s" = room h "s".
Proof.
  intros h e.
  destruct (step h e) as [[h' out]|] eqn:Hstep; [|by vm_compute in Hstep].
  exists h', out. split; [reflexivity|].
  assert (Hr : room_of h' (sender_of e) = Some "r").
  { eapply step_room_of; [exact Hstep|]. vm_compute. reflexivity. }
  split; [exact Hr|].
  apply (other_rooms_untouched h e h' out "r" "s" Hstep Hr). discriminate.
Defined.

(** A disconnect leaves no entry under the id it names. *)
Lemma disconnect_drops_sender skip c message fails clients cl :
  Type_ message = "disconnect" →
  i_clients (switch_on_type skip c message fails clients cl) !! UserID message = None.
Proof.
  intros Ht. unfold switch_on_type.
  rewrite decide_False by (rewrite Ht; discriminate). rewrite decide_True by done.
  destruct (range_send skip true message fails clients cl) as [[clients' cl'] out'].
  simpl. apply lookup_delete_eq.
Qed.

(** A message of a type other than connect is only ever forwarded, as it
    is. *)
Lemma switch_on_type_forwards skip c message fails clients cl o :
  Type_ message ≠ "connect" →
  o ∈ i_out (switch_on_type skip c message fails clients cl) →
  ∃ user client, clients !! user = Some client ∧ o = Forward user (Socket client) message.
Proof.
  intros Ht. unfold switch_on_type. rewrite decide_False by done.
  destruct (decide (Type_ message = "disconnect")).
  - destruct (range_send skip true message fails clients cl) as [[clients' cl'] out'] eqn:Hr.
    simpl. intros Ho. apply (range_send_out _ _ _ _ _ _ _ _ _ _ Hr) in Ho. naive_solver.
  - destruct (range_send skip false message fails clients cl) as [[clients' cl'] out'] eqn:Hr.
    simpl. intros Ho. apply (range_send_out _ _ _ _ _ _ _ _ _ _ Hr) in Ho. naive_solver.
Qed.

(** What a step on a frame is, spelled out. *)
Lemma step_Read_Some h c f fails h' out hd :
  step h (Read c (Some f) fails) = Some (h', out) →
  handlers h !! c = Some hd →
  let it := wshandler_iter c (ReadJSON f (h_message hd)) fails
              (room h (h_socket hd)) (closed h) in
  h' = mkHub (<[h_socket hd := i_clients it]> (sockets h)) (i_closed it)
             (<[c := mkHandler (h_socket hd) (i_message it) true]> (handlers h)) ∧
  out = i_out it.
Proof.
  simpl. intros Hstep Hh. rewrite Hh in Hstep.
  destruct (h_live hd); [|done]. destruct (decide (c ∈ _)); [done|].
  by injection Hstep as <- <-.
Qed.

(** X10: after a participant has left with a disconnect message, the next
    message relayed in the room by another participant is not forwarded to
    the id that left. *)
Theorem left_member_not_forwarded h c f fails h1 out1 hd c' f' fails' h2 out2 hd' d m :
  step h (Read c (Some f) fails) = Some (h1, out1) →
  handlers h !! c = Some hd →
  Type_ (ReadJSON f (h_message hd)) = "disconnect" →
  step h1 (Read c' (Some f') fails') = Some (h2, out2) →
  handlers h1 !! c' = Some hd' →
  h_socket hd' = h_socket hd →
  UserID (ReadJSON f' (h_message hd')) ≠ UserID (ReadJSON f (h_message hd)) →
  Forward (UserID (ReadJSON f (h_message hd))) d m ∉ out2.
Proof.
  intros Hstep1 Hh Ht Hstep2 Hh' Hroom Hne Hin.
  destruct (step_Read_Some _ _ _ _ _ _ _ Hstep1 Hh) as [-> _].
  destruct (step_Read_Some _ _ _ _ _ _ _ Hstep2 Hh') as [_ ->].
  rewrite Hroom, room_insert in Hin. unfold wshandler_iter in Hin.
  apply switch_on_type_out in Hin as [[m' [=]]|(u & cl0 & Hl & _ & Heq)].
  assert (Hu : u = UserID (ReadJSON f (h_message hd))) by congruence.
  clear Heq. subst u.
  apply lookup_register in Hl as [Hl|[Hu _]]; [|by symmetry in Hu].
  pose proof (disconnect_drops_sender
                (λ user, bool_decide (user = UserID (ReadJSON f (h_message hd))))
                c (ReadJSON f (h_message hd)) fails
                (register c (ReadJSON f (h_message hd)) (room h (h_socket hd)))
                (closed h) Ht) as Hgone.
  congruence.
Qed.

Lemma left_member_not_forwarded_witness :
  let h := hub_after two_joined in
  let e1 := Read 1 (Some (frame "disconnect" "a" None)) fine in
  let e2 := Read 2 (Some (frame "offer" "b" None)) fine in
  let h1 := hub_after (two_joined ++ [e1]) in
  let h2 := hub_after (two_joined ++ [e1; e2]) in
  step h e1 = Some (h1, [Forward "b" 2 (mkMessage "disconnect" "a" "" "" "")]) ∧
  step h1 e2 = Some (h2, []) ∧
  Forward "a" 1 (mkMessage "offer" "b" "" "" "") ∉ ([] : list Output).
Proof.
  intros h e1 e2 h1 h2.
  assert (H1 : step h e1 = Some (h1, [Forward "b" 2 (mkMessage "disconnect" "a" "" "" "")]))
    by (vm_compute; reflexivity).
  assert (H2 : step h1 e2 = Some (h2, [])) by (vm_compute; reflexivity).
  split; [exact H1|]. split; [exact H2|].
  apply (left_member_not_forwarded h 1 (frame "disconnect" "a" None) fine h1 _
           (mkHandler "r" (mkMessage "session_joined" "a" "" "" "") true)
           2 (frame "offer" "b" None) fine h2 []
           (mkHandler "r" (mkMessage "session_joined" "b" "" "" "") true)
           1 (mkMessage "offer" "b" "" "" "") H1);
    [vm_compute; reflexivity | reflexivity | exact H2
    | vm_compute; reflexivity | reflexivity | discriminate].
Defined.

(** X8: the handler decodes every frame into one variable. After a connect
    message, whose type the handler has overwritten with "session_joined",
    a frame of the same connection that carries no type is handled as a
    message of type "session_joined": it is relayed to the other members
    under that type. *)
Theorem type_persists_after_connect h c f fails h1 out1 hd f' fails' h2 out2 o :
  step h (Read c (Some f) fails) = Some (h1, out1) →
  handlers h !! c = Some hd →
  Type_ (ReadJSON f (h_message hd)) = "connect" →
  f_type f' = None →
  step h1 (Read c (Some f') fails') = Some (h2, out2) →
  o ∈ out2 →
  ∃ user d m, o = Forward user d m ∧ Type_ m = "session_joined".
Proof.
  intros Hstep1 Hh Ht Hf' Hstep2 Ho.
  destruct (step_Read_Some _ _ _ _ _ _ _ Hstep1 Hh) as [-> _].
  assert (Hm : i_message (wshandler_iter c (ReadJSON f (h_message hd)) fails
                            (room h (h_socket hd)) (closed h))
               = set_type "session_joined" (ReadJSON f (h_message hd))).
  { unfold wshandler_iter, switch_on_type. rewrite decide_True by done.
    by destruct (WriteJSON _ _ _). }
  eapply step_Read_Some in Hstep2 as [_ Hout];
    [|simpl; apply lookup_insert_eq].
  subst out2. simpl in Ho. rewrite Hm in Ho. unfold wshandler_iter in Ho.
  apply switch_on_type_forwards in Ho as (user & client & _ & ->).
  - eexists _, _, _. split; [done|]. simpl. by rewrite Hf'.
  - simpl. rewrite Hf'. simpl. discriminate.
Qed.

Lemma type_persists_after_connect_witness :
  let h := hub_after [Upgrade 1 "r"; Upgrade 2 "r";
                      Read 2 (Some (frame "connect" "b" None)) fine] in
  let e1 := Read 1 (Some (frame "connect" "a" None)) fine in
  let f' := mkFrame None None (Some "sdp") None None in
  let h1 := hub_after [Upgrade 1 "r"; Upgrade 2 "r";
                       Read 2 (Some (frame "connect" "b" None)) fine; e1] in
  let o := Forward "b" 2 (mkMessage "session_joined" "a" "sdp" "" "") in
  ∃ h2, step h1 (Read 1 (Some f') fine) = Some (h2, [o]) ∧
        ∃ user d m, o = Forward user d m ∧ Type_ m = "session_joined".
Proof.
  intros h e1 f' h1 o.
  assert (H1 : step h e1 = Some (h1, [Reply 1 (mkMessage "session_joined" "a" "" "" "")]))
    by (vm_compute; reflexivity).
  destruct (step h1 (Read 1 (Some f') fine)) as [[h2 out2]|] eqn:H2;
    [|by vm_compute in H2].
  assert (Hout : out2 = [o]) by (vm_compute in H2; by injection H2 as _ <-).
  subst out2. exists h2. split; [reflexivity|].
  apply (type_persists_after_connect h 1 (frame "connect" "a" None) fine h1 _
           (mkHandler "r" zero_message true) f' fine h2 [o] o H1);
    [vm_compute; reflexivity | reflexivity | reflexivity | exact H2
    | apply list_elem_of_here].
Defined.

End HubFacts.

(** ** Part VII: more on the session controllers *)

Module SessionFacts.
Import Controllers ControllersFacts Handles.

(** *** Handles are 40 hexadecimal digits *)

Lemma length_be_bytes k n : length (Sha1.be_bytes k n) = k.
Proof.
  revert n. induction k as [|k IH]; intros n; simpl; [done|].
  rewrite length_app, IH. simpl. lia.
Qed.

Lemma length_Sum data : length (Sha1.Sum data) = 20.
Proof.
  unfold Sha1.Sum.
  destruct (Sha1.blocks _ _ _) as [[[[h0 h1] h2] h3] h4].
  rewrite length_fmap, !length_app, !length_be_bytes. done.
Qed.

Lemma digits_hex_lower (b : Byte.byte) :
  is_hex_lower (Hex.digit (Byte.to_N b / 16)) &&
  is_hex_lower (Hex.digit (Byte.to_N b mod 16)) = true.
Proof. destruct b; vm_compute; reflexivity. Qed.

Lemma EncodeToString_hex_lower bs : all_hex_lower (Hex.EncodeToString bs) = true.
Proof.
  induction bs as [|b bs IH]; [done|].
  cbn [Hex.EncodeToString all_hex_lower]. rewrite IH, andb_true_r.
  apply digits_hex_lower.
Qed.

(** X14: whatever the string, [hashSession] returns 40 characters, each
    one of 0-9 or a-f. The handle and the socket URL of a session always
    have this form. *)
Theorem hashSession_is_40_hex_digits str :
  String.length (hashSession str) = 40 ∧ all_hex_lower (hashSession str) = true.
Proof.
  unfold hashSession. split.
  - by rewrite length_EncodeToString, length_Sum.
  - apply EncodeToString_hex_lower.
Qed.

(** *** Lookups in a collection that has grown *)

Lemma find_app_Some {A} (f : A → bool) l1 l2 x :
  List.find f l1 = Some x → List.find f (l1 ++ l2) = Some x.
Proof.
  induction l1 as [|y l1 IH]; simpl; [done|]. destruct (f y); [done|]. apply IH.
Qed.

Lemma find_app_None {A} (f : A → bool) l1 l2 :
  List.find f l1 = None → List.find f (l1 ++ l2) = List.find f l2.
Proof.
  induction l1 as [|y l1 IH]; simpl; [done|]. destruct (f y); [done|]. apply IH.
Qed.

Lemma find_session_fresh (l : list (ObjectID * Session)) oid :
  oid ∉ l.*1 → List.find (λ p, bool_decide (p.1 = oid)) l = None.
Proof.
  induction l as [|[o s] l IH]; simpl; [done|].
  intros [Hne Hni]%not_elem_of_cons.
  rewrite bool_decide_eq_false_2 by done. by apply IH.
Qed.

Section create_and_join.
Context {store : CredentialStore}.

(** A successful call adds the stored session under its id, and the socket
    document when the store takes it, after the ones that were there; the
    answer is 200 with the handle either way. *)
Lemma CreateSession_Bound inserted accepted session db db' w :
  CreateSession inserted accepted (Bound session) db = Done (db', w) →
  ∃ oid, inserted = Some oid ∧ (oid ∉ (sessions db).*1) ∧
    db' = CreateSocket_after accepted oid (stored session) db ∧
    wire w = (StatusOK, [[("socket", hashSession (Host session +:+ Title session))]]).
Proof.
  unfold CreateSession. destruct inserted as [oid|]; [|done].
  destruct (decide (oid ∈ _)) as [|Hn]; [done|].
  destruct accepted; simpl; intros [= <- <-]; by exists oid.
Qed.

(** X11: creating a session and joining it do not compose. Starting from
    a database built by create-session calls, [CreateSession] answers 200
    with the handle, and [ConnectSession] on that handle, whatever the
    password, answers 400 with the errors "Socket connection not found."
    and "Session not found.": the lookup of line 21 does not find the
    document that [CreateSocket] wrote. *)
Theorem create_then_join_not_found inserted accepted session db db' w input :
  reachable db →
  (∀ oid, inserted = Some oid → length oid = 12) →
  CreateSession inserted accepted (Bound session) db = Done (db', w) →
  wire w = (200, [[("socket", hashSession (Host session +:+ Title session))]]) ∧
  (accepted = true →
   stored_handle db' (hashSession (Host session +:+ Title session))) ∧
  wire (ConnectSession (hashSession (Host session +:+ Title session)) (Bound input) db')
  = (400, [[("error", "Socket connection not found.")];
           [("error", "Session not found.")]]).
Proof.
  intros Hr Hlen Hc.
  assert (Hr' : reachable db') by (by eapply reachable_create).
  apply CreateSession_Bound in Hc as (oid & -> & Hfresh & -> & Hw).
  split; [exact Hw|]. split; [|by apply reachable_ConnectSession].
  intros ->. exists (written_for (oid, stored session)). split; [|done].
  simpl. apply elem_of_app. right. apply list_elem_of_here.
Qed.

(** X12: nor is the handle known to the probe: after the same call,
    [GetSession] with that handle as "url" answers 400
    "Socket connection not found.". *)
Theorem create_then_probe_not_found inserted accepted session db db' w rest :
  reachable db →
  (∀ oid, inserted = Some oid → length oid = 12) →
  CreateSession inserted accepted (Bound session) db = Done (db', w) →
  GetSession {[ "url" := hashSession (Host session +:+ Title session) :: rest ]} db'
  = Done (JSON 400 [("error", "Socket connection not found.")] new_writer).
Proof.
  intros Hr Hlen Hc.
  assert (Hr' : reachable db') by (by eapply reachable_create).
  unfold GetSession. rewrite lookup_singleton_eq. simpl.
  by rewrite reachable_FindOne.
Qed.

(** X15: in any state of the database, consistent or not,
    [ConnectSession] answers 200 or 400, and it answers 200 only to a body
    that binds, for a target that has a socket record whose session exists,
    with a password that verifies against the stored hash of that
    session. *)
Theorem join_only_with_password db url body :
  let w := ConnectSession url body db in
  (status w = 200 ∨ status w = 400) ∧
  (status w = 200 →
   ∃ input socket session,
     body = Bound input ∧
     FindOne_socket db url = Some socket ∧
     session_of db socket = Some session ∧
     ComparePasswords (Password session) (Password input) = true).
Proof.
  destruct body as [err|input].
  { intros w. subst w. split; [right; reflexivity|discriminate]. }
  intros w. pose proof (ConnectSession_cases db url input) as Hw. fold w in Hw.
  assert (Hst : status w = (wire w).1) by done. rewrite Hst, Hw. clear Hst Hw.
  destruct (FindOne_socket db url) as [socket|] eqn:Hf; [|split; [by right|done]].
  destruct (session_of db socket) as [session|] eqn:Hs; [|split; [by right|done]].
  destruct (ComparePasswords _ _) eqn:Hc; [|split; [by right|done]].
  split; [by left|]. intros _. by exists input, socket, session.
Qed.

End create_and_join.

(** *** On the scenario of section 8 *)

Lemma create_then_join_not_found_witness :
  let session := mkSession "h1" "Standup" "p1" in
  let w := JSON StatusOK [("socket", standup_handle)] new_writer in
  reachable (store := prefix_store) empty_db ∧
  CreateSession (store := prefix_store) (Some oid1) true (Bound session) empty_db
  = Done (standup_db, w) ∧
  wire (ConnectSession (store := prefix_store)
          (hashSession (Host session +:+ Title session))
          (Bound (mkSession "" "" "p1")) standup_db)
  = (400, [[("error", "Socket connection not found.")];
           [("error", "Session not found.")]]).
Proof.
  intros session w.
  assert (Hc : CreateSession (store := prefix_store) (Some oid1) true (Bound session)
                 empty_db = Done (standup_db, w)) by (vm_compute; reflexivity).
  assert (Hl : ∀ oid, Some oid1 = Some oid → length oid = 12) by (by intros oid [= <-]).
  split; [constructor|]. split; [exact Hc|].
  exact (proj2 (proj2 (create_then_join_not_found (store := prefix_store) (Some oid1) true
                         session empty_db standup_db w (mkSession "" "" "p1")
                         reachable_empty Hl Hc))).
Defined.

Lemma create_then_probe_not_found_witness :
  let session := mkSession "h1" "Standup" "p1" in
  let w := JSON StatusOK [("socket", standup_handle)] new_writer in
  reachable (store := prefix_store) empty_db ∧
  CreateSession (store := prefix_store) (Some oid1) true (Bound session) empty_db
  = Done (standup_db, w) ∧
  GetSession {[ "url" := [hashSession (Host session +:+ Title session)] ]} standup_db
  = Done (JSON 400 [("error", "Socket connection not found.")] new_writer).
Proof.
  intros session w.
  assert (Hc : CreateSession (store := prefix_store) (Some oid1) true (Bound session)
                 empty_db = Done (standup_db, w)) by (vm_compute; reflexivity).
  assert (Hl : ∀ oid, Some oid1 = Some oid → length oid = 12) by (by intros oid [= <-]).
  split; [constructor|]. split; [exact Hc|].
  exact (create_then_probe_not_found (store := prefix_store) (Some oid1) true session
           empty_db standup_db w [] reachable_empty Hl Hc).
Defined.

Lemma join_only_with_password_witness :
  let w := ConnectSession (store := prefix_store) standup_handle
             (Bound (mkSession "" "" "p1")) camel_db in
  status w = 200 ∧
  ∃ input socket session,
    Bound (mkSession "" "" "p1") = Bound input ∧
    FindOne_socket camel_db standup_handle = Some socket ∧
    session_of camel_db socket = Some session ∧
    ComparePasswords (CredentialStore := prefix_store)
      (Password session) (Password input) = true.
Proof.
  intros w.
  assert (Hok : status w = 200) by (vm_compute; reflexivity).
  split; [exact Hok|].
  pose proof (join_only_with_password (store := prefix_store) camel_db standup_handle
                (Bound (mkSession "" "" "p1"))) as Hj.
  cbv zeta in Hj. destruct Hj as [_ Hj]. exact (Hj Hok).
Defined.

End SessionFacts.

(** ** Part VIII: properties of [getenv] and of the users service *)

Module ConfigFacts.
Import Config.

Lemma length_0_empty (s : string) : String.length s = 0 ↔ s = "".
Proof. destruct s; simpl; split; (done || lia || discriminate). Qed.

(** X16: [getenv] returns the value of the variable when it is set to a
    non-empty string and the fallback otherwise: a variable set to the empty
    string counts as unset, and with a non-empty fallback the result is
    never empty. *)
Theorem getenv_falls_back env key fallback :
  (∀ v, env !! key = Some v → v ≠ "" → getenv env key fallback = v) ∧
  (env !! key = None ∨ env !! key = Some "" → getenv env key fallback = fallback) ∧
  (fallback ≠ "" → getenv env key fallback ≠ "").
Proof.
  unfold getenv, Getenv. split_and!.
  - intros v -> Hv. simpl. rewrite decide_False; [done|]. by rewrite length_0_empty.
  - by intros [->| ->].
  - intros Hf. destruct (env !! key) as [v|]; simpl; [|done].
    destruct (decide (String.length v = 0)) as [|Hn]; [done|].
    by rewrite length_0_empty in Hn.
Qed.

End ConfigFacts.

Module UsersFacts.
Import Users.

(** *** Ids *)

Lemma length_DecodeString_le n s d :
  String.length s ≤ n →
  Hex.DecodeString s = Some d → String.length s = 2 * length d.
Proof.
  revert s d. induction n as [|n IH]; intros s d Hn.
  - destruct s; [|simpl in Hn; lia]. by intros [= <-].
  - destruct s as [|hi [|lo s]].
    + by intros [= <-].
    + done.
    + cbn [Hex.DecodeString].
      destruct (Hex.fromHexChar hi); [|done]. destruct (Hex.fromHexChar lo); [|done].
      destruct (Hex.DecodeString s) as [bs|] eqn:Hs; [|done].
      destruct (Byte.of_N _); [|done]. intros [= <-].
      simpl in *. rewrite (IH s bs); [lia|lia|done].
Qed.

Lemma length_DecodeString s d :
  Hex.DecodeString s = Some d → String.length s = 2 * length d.
Proof. by apply (length_DecodeString_le (String.length s)). Qed.

(** An id that [ValidateObjectId] lets through is one [bson.ObjectIdHex]
    does not panic on. *)
Lemma validated_ObjectIdHex id :
  ValidateObjectId id = None → ∃ oid, ObjectIdHex id = Some oid ∧ length oid = 12.
Proof.
  unfold ValidateObjectId, IsObjectIdHex, ObjectIdHex.
  destruct (bool_decide (String.length id = 24)) eqn:Hl; [|done].
  apply bool_decide_eq_true in Hl.
  destruct (Hex.DecodeString id) as [d|] eqn:Hd; [|done]. intros _.
  apply length_DecodeString in Hd.
  assert (length d = 12) by lia. exists d. by rewrite decide_True.
Qed.

Lemma ValidateObjectId_Hex (oid : ObjectId) :
  length oid = 12 →
  ValidateObjectId (Hex oid) = None ∧ ObjectIdHex (Hex oid) = Some oid.
Proof.
  intros Hl. unfold ValidateObjectId, IsObjectIdHex, ObjectIdHex, Hex.
  rewrite ControllersFacts.length_EncodeToString, Hl.
  rewrite ControllersFacts.DecodeString_EncodeToString.
  simpl. by rewrite decide_True.
Qed.

(** *** The store *)

Lemma FindId_fresh id (users : Collection) :
  id ∉ ID <$> users → FindId id users = None.
Proof.
  unfold FindId. induction users as [|u users IH]; simpl; [done|].
  intros [Hne Hni]%not_elem_of_cons.
  rewrite bool_decide_eq_false_2 by done. by apply IH.
Qed.

Lemma FindId_Some id (users : Collection) u :
  FindId id users = Some u → u ∈ users ∧ ID u = id.
Proof.
  unfold FindId. intros [Hin Hb]%List.find_some.
  apply bool_decide_eq_true in Hb. split; [by apply list_elem_of_In|done].
Qed.

Lemma remove_id_spec id (users users' : Collection) :
  remove_id id users = Some users' →
  length users = S (length users') ∧
  (∀ u, u ∈ users' → u ∈ users) ∧
  (∀ o, o ≠ id → FindId o users' = FindId o users) ∧
  (NoDup (ID <$> users) → NoDup (ID <$> users') ∧ FindId id users' = None).
Proof.
  revert users'. induction users as [|u users IH]; intros users'; simpl; [done|].
  destruct (bool_decide (ID u = id)) eqn:Hb.
  - apply bool_decide_eq_true in Hb. intros [= <-]. split_and!; [done|set_solver| |].
    + intros o Ho. unfold FindId. simpl. rewrite bool_decide_eq_false_2; [done|congruence].
    + intros [Hni Hnd]%NoDup_cons. split; [done|]. apply FindId_fresh. by rewrite <- Hb.
  - apply bool_decide_eq_false in Hb.
    destruct (remove_id id users) as [r|]; [|done]. simpl. intros [= <-].
    destruct (IH r eq_refl) as (Hlen & Hsub & Hoth & Hnd). split_and!.
    + simpl. lia.
    + intros x [->|Hx]%elem_of_cons; [set_solver|]. apply elem_of_cons. right. by apply Hsub.
    + intros o Ho. unfold FindId in *. simpl. destruct (bool_decide (ID u = o)); [done|].
      by apply Hoth.
    + intros [Hni Hnd']%NoDup_cons. destruct (Hnd Hnd') as [Hnd1 Hf]. split.
      * simpl. apply NoDup_cons. split; [|done].
        intros (x & Hx & Hin)%list_elem_of_fmap. apply Hni.
        apply list_elem_of_fmap. exists x. split; [done|]. by apply Hsub.
      * unfold FindId in *. simpl. by rewrite bool_decide_eq_false_2.
Qed.

Lemma update_id_spec id name password (users users' : Collection) :
  update_id id name password users = Some users' →
  ID <$> users' = ID <$> users ∧
  FindId id users' = Some (mkUser id name password) ∧
  (∀ o, o ≠ id → FindId o users' = FindId o users) ∧
  (∀ u, u ∈ users' → u ∈ users ∨ u = mkUser id name password).
Proof.
  revert users'. induction users as [|u users IH]; intros users'; simpl; [done|].
  destruct (bool_decide (ID u = id)) eqn:Hb.
  - apply bool_decide_eq_true in Hb. intros [= <-]. rewrite Hb. split_and!.
    + done.
    + unfold FindId. simpl. by rewrite bool_decide_eq_true_2.
    + intros o Ho. unfold FindId. simpl.
      rewrite !bool_decide_eq_false_2; [done|congruence..].
    + intros x [->|Hx]%elem_of_cons; [by right|]. left. set_solver.
  - apply bool_decide_eq_false in Hb.
    destruct (update_id id name password users) as [r|]; [|done]. simpl. intros [= <-].
    destruct (IH r eq_refl) as (Hids & Hf & Hoth & Hin). split_and!.
    + rewrite !fmap_cons. by rewrite Hids.
    + unfold FindId in *. simpl. by rewrite bool_decide_eq_false_2.
    + intros o Ho. unfold FindId in *. simpl. destruct (bool_decide (ID u = o)); [done|].
      by apply Hoth.
    + intros x [->|Hx]%elem_of_cons; [left; set_solver|].
      destruct (Hin x Hx) as [?|?]; [left; set_solver|by right].
Qed.

Lemma Validate_None a :
  Validate a = None ↔ AddUser_Name a ≠ "" ∧ AddUser_Password a ≠ "".
Proof.
  unfold Validate. rewrite <- !ConfigFacts.length_0_empty.
  destruct (decide (String.length (AddUser_Name a) = 0));
    destruct (decide (String.length (AddUser_Password a) = 0)); naive_solver.
Qed.

Lemma Insert_Some up user (users users' : Collection) :
  Insert up user users = Some users' →
  up = true ∧ (ID user ∉ ID <$> users) ∧ users' = users ++ [user].
Proof.
  unfold Insert. destruct up; [|done]. simpl.
  destruct (bool_decide (ID user ∈ ID <$> users)) eqn:Hb; [done|].
  apply bool_decide_eq_false in Hb. by intros [= <-].
Qed.

(** *** What the service keeps *)

(** The condition every stored user meets. *)
Lemma valid_after_op op (users : Collection) :
  well_formed op →
  NoDup (ID <$> users) ∧
  (∀ u, u ∈ users → Name u ≠ "" ∧ Password u ≠ "" ∧ length (ID u) = 12) →
  NoDup (ID <$> apply_op op users) ∧
  (∀ u, u ∈ apply_op op users → Name u ≠ "" ∧ Password u ≠ "" ∧ length (ID u) = 12).
Proof.
  intros Hwf [Hnd Hall].
  assert (Happ : ∀ user, ID user ∉ ID <$> users →
            Name user ≠ "" → Password user ≠ "" → length (ID user) = 12 →
            NoDup (ID <$> (users ++ [user])) ∧
            ∀ u, u ∈ users ++ [user] →
                 Name u ≠ "" ∧ Password u ≠ "" ∧ length (ID u) = 12).
  { intros user Hni Hn Hp Hl. split.
    - rewrite fmap_app. apply NoDup_app. split_and!; [done| |apply NoDup_singleton].
      intros x Hx ->%list_elem_of_singleton. done.
    - intros u [Hu| ->%list_elem_of_singleton]%elem_of_app; [by apply Hall|done]. }
  destruct op as [counted up oid|up oid body|up id body|up id]; simpl in *.
  - unfold initData. destruct (_ <? 1); [|done].
    destruct (Insert up _ users) as [users'|] eqn:Hi; [|done].
    apply Insert_Some in Hi as (_ & Hni & ->). simpl. by apply Happ.
  - unfold CreateUser. destruct body as [err|a]; [done|].
    destruct (Validate a) eqn:Hv; [done|]. apply Validate_None in Hv as [Hn Hp].
    destruct (Insert up _ users) as [users'|] eqn:Hi; [|done].
    apply Insert_Some in Hi as (_ & Hni & ->). simpl. by apply Happ.
  - unfold UpdateUser. destruct body as [err|a]; [done|].
    destruct (Validate a) eqn:Hv; [done|]. apply Validate_None in Hv as [Hn Hp].
    destruct (ValidateObjectId id) eqn:Hid; [done|].
    apply validated_ObjectIdHex in Hid as (oid & -> & Hlen).
    destruct up; [|done].
    destruct (update_id _ _ _ users) as [users'|] eqn:Hu; [|done]. simpl.
    apply update_id_spec in Hu as (Hids & _ & _ & Hin). split; [by rewrite Hids|].
    intros u Hu. destruct (Hin u Hu) as [?| ->]; [by apply Hall|done].
  - unfold DeleteUser, DeleteByID.
    destruct (ValidateObjectId id) eqn:Hid; [done|].
    apply validated_ObjectIdHex in Hid as (oid & -> & Hlen).
    destruct up; [|done].
    destruct (remove_id oid users) as [users'|] eqn:Hr; [|done]. simpl.
    apply remove_id_spec in Hr as (_ & Hsub & _ & Hnd').
    split; [by apply Hnd'|]. intros u Hu. by apply Hall, Hsub.
Qed.

(** X17: whatever requests the service has served since an empty store
    (start-ups, creations, updates, deletions, with the store answering or
    not), the stored users have pairwise distinct ids, and none has an empty
    name or an empty password. *)
Theorem stored_users_are_valid (users : Collection) :
  reachable users →
  NoDup (ID <$> users) ∧
  ∀ u, u ∈ users → Name u ≠ "" ∧ Password u ≠ "".
Proof.
  intros Hr.
  assert (Hall : NoDup (ID <$> users) ∧
            ∀ u, u ∈ users → Name u ≠ "" ∧ Password u ≠ "" ∧ length (ID u) = 12).
  { induction Hr as [|op users Hr IH Hwf].
    - split; [constructor|]. by intros u ?%elem_of_nil.
    - by apply valid_after_op. }
  destruct Hall as [Hnd Hall]. split; [done|]. intros u Hu.
  by destruct (Hall u Hu) as (? & ? & _).
Qed.

(** *** Authentication *)

(** X18: with the store answering and the token signed, [Authenticate]
    answers 200 exactly when some stored user has the given name and the
    given password, compared as they are stored; the answer then names the
    first such user. Otherwise it answers 401. *)
Theorem authenticate_checks_credentials GenerateJWT (users : Collection) c :
  (∀ name, is_Some (GenerateJWT name "user")) →
  let r := Authenticate GenerateJWT true (Bound c) users in
  (r.1 = 200 ↔
     ∃ u, u ∈ users ∧ Name u = Username c ∧ Password u = Cred_Password c) ∧
  (r.1 = 200 ∨ r.1 = 401) ∧
  (r.1 = 200 →
     ∃ u token, find_user c users = Some u ∧ GenerateJWT (Name u) "user" = Some token ∧
       r.2 = JObject [("token", JString token);
                      ("user", JObject [("id", JString (Hex (ID u)));
                                        ("name", JString (Name u))])]).
Proof.
  intros Hjwt r. subst r. unfold Authenticate. simpl.
  destruct (find_user c users) as [u|] eqn:Hf.
  - destruct (Hjwt (Name u)) as [token Ht]. rewrite Ht. simpl.
    pose proof Hf as Hf0.
    unfold find_user in Hf. apply List.find_some in Hf as [Hin Hb].
    apply andb_true_iff in Hb as [Hn Hp].
    apply bool_decide_eq_true in Hn. apply bool_decide_eq_true in Hp.
    split_and!; [|by left|].
    + split; [|done]. intros _. exists u. split_and!; [by apply list_elem_of_In|done..].
    + intros _. by exists u, token.
  - simpl. split_and!; [|by right|done].
    split; [done|]. intros (u & Hin & Hn & Hp). exfalso.
    unfold find_user in Hf. apply list_elem_of_In in Hin.
    pose proof (List.find_none _ _ Hf u Hin) as Hb. simpl in Hb.
    rewrite Hn, Hp, !bool_decide_eq_true_2 in Hb by done. done.
Qed.

(** *** Create, read, update, delete *)

(** X19: a user created is a user found, and a user deleted is gone. After
    [CreateUser] has stored a valid body under a new id, [GetUser] with the
    hexadecimal id of the answer returns the user as stored, password
    included; [DeleteUser] with that id gives back the collection as it was
    before, and [GetUser] then answers 404. *)
Theorem create_get_delete oid a (users : Collection) :
  length oid = 12 →
  Validate a = None →
  oid ∉ ID <$> users →
  let user := mkUser oid (AddUser_Name a) (AddUser_Password a) in
  CreateUser true oid (Bound a) users =
    (users ++ [user],
     (201, JObject [("id", JString (Hex oid)); ("name", JString (AddUser_Name a))])) ∧
  GetUser true (Hex oid) (users ++ [user]) = (200, user_json user) ∧
  DeleteUser true (Hex oid) (users ++ [user]) =
    (users, (200, JObject [("message", JString "User deleted successfully")])) ∧
  GetUser true (Hex oid) users = (404, error_json "User not found").
Proof.
  intros Hlen Hv Hni user.
  destruct (ValidateObjectId_Hex oid Hlen) as [Hval Hhex].
  assert (Hfind : FindId oid (users ++ [user]) = Some user).
  { unfold FindId. rewrite SessionFacts.find_app_None by (by apply FindId_fresh).
    simpl. by rewrite bool_decide_eq_true_2. }
  assert (Hrem : remove_id oid (users ++ [user]) = Some users).
  { clear Hfind. induction users as [|u users IH]; simpl.
    - by rewrite bool_decide_eq_true_2.
    - apply not_elem_of_cons in Hni as [Hne Hni].
      rewrite bool_decide_eq_false_2 by done. by rewrite IH. }
  split_and!.
  - unfold CreateUser, Insert. rewrite Hv. simpl.
    by rewrite bool_decide_eq_false_2.
  - unfold GetUser, GetByID. by rewrite Hval, Hhex, Hfind.
  - unfold DeleteUser, DeleteByID. by rewrite Hval, Hhex, Hrem.
  - unfold GetUser, GetByID. rewrite Hval, Hhex. by rewrite FindId_fresh.
Qed.

Lemma create_get_delete_witness :
  let a := mkAddUser "ann" "secret" in
  let admin := mkUser Controllers.oid1 "admin" "admin" in
  length Controllers.oid2 = 12 ∧ Validate a = None ∧
  (Controllers.oid2 ∉ ID <$> [admin]) ∧
  GetUser true (Hex Controllers.oid2) ([admin] ++ [mkUser Controllers.oid2 "ann" "secret"])
  = (200, user_json (mkUser Controllers.oid2 "ann" "secret")).
Proof.
  intros a admin.
  assert (Hni : Controllers.oid2 ∉ ID <$> [admin]).
  { intros [Heq|Hin]%elem_of_cons; [discriminate|by apply elem_of_nil in Hin]. }
  split; [reflexivity|]. split; [reflexivity|]. split; [exact Hni|].
  destruct (create_get_delete Controllers.oid2 a [admin] eq_refl eq_refl Hni)
    as (_ & Hget & _).
  exact Hget.
Defined.

(** X20: an id that is not 24 hexadecimal digits never reaches the store.
    [GetUser] and [DeleteUser] answer 404 and [UpdateUser], given a valid
    body, answers 400 "Invalid ID"; the collection is left as it was. *)
Theorem malformed_id_rejected up id a (users : Collection) :
  IsObjectIdHex id = false →
  GetUser up id users = (404, error_json "User not found") ∧
  DeleteUser up id users = (users, (404, error_json "User not found")) ∧
  (Validate a = None →
   UpdateUser up id (Bound a) users = (users, (400, error_json "Invalid ID"))).
Proof.
  intros Hid.
  assert (Hv : ValidateObjectId id = Some "error object id not hex").
  { unfold ValidateObjectId. by rewrite Hid. }
  split_and!.
  - unfold GetUser, GetByID. by rewrite Hv.
  - unfold DeleteUser, DeleteByID. by rewrite Hv.
  - intros Ha. unfold UpdateUser. by rewrite Ha, Hv.
Qed.

Lemma malformed_id_rejected_witness :
  IsObjectIdHex "42" = false ∧
  GetUser true "42" [mkUser Controllers.oid1 "admin" "admin"]
  = (404, error_json "User not found").
Proof.
  split; [reflexivity|].
  exact (proj1 (malformed_id_rejected true "42" (mkAddUser "a" "b")
                  [mkUser Controllers.oid1 "admin" "admin"] eq_refl)).
Defined.

(** X21: a successful [UpdateUser] sets the name and the password of the
    user with the given id and nothing else: the ids of the collection and
    their order are unchanged, and every user under another id is as
    before. *)
Theorem update_changes_one_user up id a (users users' : Collection) r :
  UpdateUser up id (Bound a) users = (users', (200, r)) →
  ∃ oid,
    ObjectIdHex id = Some oid ∧
    ID <$> users' = ID <$> users ∧
    FindId oid users' = Some (mkUser oid (AddUser_Name a) (AddUser_Password a)) ∧
    ∀ o, o ≠ oid → FindId o users' = FindId o users.
Proof.
  unfold UpdateUser. destruct (Validate a); [by intros [=]|].
  destruct (ValidateObjectId id) eqn:Hid; [by intros [=]|].
  apply validated_ObjectIdHex in Hid as (oid & Hhex & _). rewrite Hhex.
  destruct up; [|by intros [=]].
  destruct (update_id _ _ _ users) as [users1|] eqn:Hu; [|by intros [=]].
  intros [= <- _]. exists oid. split; [done|].
  apply update_id_spec in Hu as (Hids & Hf & Hoth & _). done.
Qed.

Lemma update_changes_one_user_witness :
  let users := [mkUser Controllers.oid1 "admin" "admin";
                mkUser Controllers.oid2 "ann" "secret"] in
  let users' := [mkUser Controllers.oid1 "admin" "admin";
                 mkUser Controllers.oid2 "ann" "changed"] in
  let r := JObject [("message", JString "User updated successfully")] in
  UpdateUser true "000000000000000000000002" (Bound (mkAddUser "ann" "changed")) users
  = (users', (200, r)) ∧
  ID <$> users' = ID <$> users.
Proof.
  intros users users' r.
  assert (Hu : UpdateUser true "000000000000000000000002"
                 (Bound (mkAddUser "ann" "changed")) users = (users', (200, r)))
    by (vm_compute; reflexivity).
  split; [exact Hu|].
  destruct (update_changes_one_user true _ _ users users' r Hu) as (oid & _ & Hids & _).
  exact Hids.
Defined.

(** X22: a successful [DeleteUser] removes one user, the one with the
    given id: the collection is one shorter, no user with that id is left
    (ids being distinct), and every user under another id is as before. *)
Theorem delete_removes_one_user up id (users users' : Collection) r :
  NoDup (ID <$> users) →
  DeleteUser up id users = (users', (200, r)) →
  ∃ oid,
    ObjectIdHex id = Some oid ∧
    length users = S (length users') ∧
    FindId oid users' = None ∧
    ∀ o, o ≠ oid → FindId o users' = FindId o users.
Proof.
  intros Hnd. unfold DeleteUser, DeleteByID.
  destruct (ValidateObjectId id) eqn:Hid; [by intros [=]|].
  apply validated_ObjectIdHex in Hid as (oid & Hhex & _). rewrite Hhex.
  destruct up; [|by intros [=]].
  destruct (remove_id oid users) as [users1|] eqn:Hr; [|by intros [=]].
  intros [= <- _]. exists oid. split; [done|].
  apply remove_id_spec in Hr as (Hlen & _ & Hoth & Hn).
  destruct (Hn Hnd) as [_ Hf]. done.
Qed.

Lemma delete_removes_one_user_witness :
  let users := [mkUser Controllers.oid1 "admin" "admin";
                mkUser Controllers.oid2 "ann" "secret"] in
  let users' := [mkUser Controllers.oid2 "ann" "secret"] in
  let r := JObject [("message", JString "User deleted successfully")] in
  NoDup (ID <$> users) ∧
  DeleteUser true "000000000000000000000001" users = (users', (200, r)) ∧
  length users = S (length users').
Proof.
  intros users users' r.
  assert (Hnd : NoDup (ID <$> users)).
  { apply NoDup_cons. split; [|apply NoDup_singleton].
    intros [Heq|Hin]%elem_of_cons; [discriminate|by apply elem_of_nil in Hin]. }
  assert (Hd : DeleteUser true "000000000000000000000001" users = (users', (200, r)))
    by (vm_compute; reflexivity).
  split; [exact Hnd|]. split; [exact Hd|].
  destruct (delete_removes_one_user true _ users users' r Hnd Hd) as (oid & _ & Hlen & _).
  exact Hlen.
Defined.

(** *** Start-up *)

(** X23: with the store answering the count, [initData] seeds the user
    admin/admin into an empty collection and leaves a collection that has a
    user as it is, so that running it again changes nothing. When the count
    fails the insert is tried all the same: a store that takes it adds
    admin/admin to a collection that already has users, and no error is
    returned. *)
Theorem initData_seeds_once oid (users : Collection) :
  (∀ up, users ≠ [] → initData true up oid users = (users, false)) ∧
  initData true true oid [] = ([mkUser oid "admin" "admin"], false) ∧
  (∀ up' oid',
     initData true up' oid' (initData true true oid users).1
     = ((initData true true oid users).1, false)) ∧
  (oid ∉ ID <$> users →
   initData false true oid users = (users ++ [mkUser oid "admin" "admin"], false)).
Proof.
  assert (Hkeep : ∀ up0 oid0 (us : Collection),
            us ≠ [] → initData true up0 oid0 us = (us, false)).
  { intros up0 oid0 us Hne. unfold initData. by destruct us. }
  split_and!.
  - intros up. apply Hkeep.
  - done.
  - intros up' oid'. apply Hkeep.
    destruct users as [|u users]; [done|]. by rewrite Hkeep.
  - intros Hni. unfold initData, Insert. simpl.
    by rewrite bool_decide_eq_false_2.
Qed.

Lemma initData_seeds_once_witness :
  let ann := mkUser Controllers.oid2 "ann" "secret" in
  [ann] ≠ [] ∧ (Controllers.oid1 ∉ ID <$> [ann]) ∧
  initData true true Controllers.oid1 [ann] = ([ann], false) ∧
  initData false true Controllers.oid1 [ann]
  = ([ann; mkUser Controllers.oid1 "admin" "admin"], false).
Proof.
  intros ann.
  assert (Hne : [ann] ≠ []) by done.
  assert (Hni : Controllers.oid1 ∉ ID <$> [ann]).
  { intros [= Heq]%list_elem_of_singleton. }
  destruct (initData_seeds_once Controllers.oid1 [ann]) as (Hkeep & _ & _ & Hadd).
  split; [exact Hne|]. split; [exact Hni|].
  split; [exact (Hkeep true Hne)|exact (Hadd Hni)].
Defined.

(** *** On a small collection *)

Lemma reachable_admin_ann :
  reachable [mkUser Controllers.oid1 "admin" "admin";
             mkUser Controllers.oid2 "ann" "secret"].
Proof.
  apply (reachable_op (OpCreate true Controllers.oid2 (Bound (mkAddUser "ann" "secret")))
           [mkUser Controllers.oid1 "admin" "admin"]); [|reflexivity].
  apply (reachable_op (OpInit true true Controllers.oid1) []); [|reflexivity].
  constructor.
Defined.

Lemma stored_users_are_valid_witness :
  let users := [mkUser Controllers.oid1 "admin" "admin";
                mkUser Controllers.oid2 "ann" "secret"] in
  reachable users ∧ NoDup (ID <$> users).
Proof.
  intros users. split; [exact reachable_admin_ann|].
  exact (proj1 (stored_users_are_valid users reachable_admin_ann)).
Defined.

Lemma authenticate_checks_credentials_witness :
  let sign : string → string → option string := λ name role, Some (name +:+ "." +:+ role) in
  let users := [mkUser Controllers.oid1 "admin" "admin";
                mkUser Controllers.oid2 "ann" "secret"] in
  (∀ name, is_Some (sign name "user")) ∧
  (Authenticate sign true (Bound (mkCredentials "ann" "secret")) users).1 = 200.
Proof.
  intros sign users.
  assert (Hs : ∀ name, is_Some (sign name "user")) by (intros name; eexists; reflexivity).
  split; [exact Hs|].
  pose proof (authenticate_checks_credentials sign users (mkCredentials "ann" "secret") Hs)
    as Ha.
  cbv zeta in Ha. destruct Ha as [Hiff _]. apply Hiff.
  exists (mkUser Controllers.oid2 "ann" "secret").
  split; [|split; reflexivity].
  apply list_elem_of_further, list_elem_of_here.
Defined.

End UsersFacts.

(** ** Part IX: the hub under the second handler *)

Module HubsFacts.
Import Relay RelayFacts Hubs.

Lemma step_with_guarded h e : step_with wshandler_iter h e = step h e.
Proof. reflexivity. Qed.

Section any_handler.
Context (skip_of : Message → string → bool).

Local Abbreviation iter :=
  (λ c message fails clients cl,
     switch_on_type (skip_of message) c message fails (register c message clients) cl).

Lemma step_with_room_of h e h' out c socket :
  step_with iter h e = Some (h', out) →
  room_of h c = Some socket → room_of h' c = Some socket.
Proof.
  unfold room_of. destruct e as [c0 s|c0 [f|] fails]; simpl.
  - destruct (decide (c0 ∈ _)) as [|Hn]; [done|]. intros [= <- <-]. simpl.
    destruct (decide (c0 = c)) as [->|Hne].
    + apply not_elem_of_dom in Hn. by rewrite Hn.
    + by rewrite lookup_insert_ne.
  - destruct (handlers h !! c0) as [hd|] eqn:Hh; [|done]. destruct (h_live hd); [|done].
    destruct (decide (c0 ∈ _)); [done|]. intros [= <- <-]. simpl.
    destruct (decide (c0 = c)) as [->|Hne].
    + rewrite lookup_insert_eq, Hh. done.
    + by rewrite lookup_insert_ne.
  - destruct (handlers h !! c0) as [hd|] eqn:Hh; [|done]. destruct (h_live hd); [|done].
    intros [= <- <-]. simpl.
    destruct (decide (c0 = c)) as [->|Hne].
    + rewrite lookup_insert_eq, Hh. done.
    + by rewrite lookup_insert_ne.
Qed.

Lemma step_with_rooms_hold_own_conns h e h' out :
  rooms_hold_own_conns h →
  step_with iter h e = Some (h', out) →
  rooms_hold_own_conns h'.
Proof.
  intros Hinv Hstep socket clients user client Hs Hl.
  assert (Hold : ∀ s cs, sockets h !! s = Some cs → cs !! user = Some client →
                         room_of h' (Socket client) = Some s).
  { intros s cs Hs0 Hl0. eapply step_with_room_of; [done|]. by eapply Hinv. }
  revert Hstep Hs. destruct e as [c0 s|c0 [f|] fails]; simpl.
  - destruct (decide (c0 ∈ _)) as [|Hn]; [done|]. intros [= <- <-]. simpl in *.
    unfold enter_room. destruct (sockets h !! s) eqn:Hs0; [by eauto|].
    destruct (decide (s = socket)) as [->|Hne].
    + rewrite lookup_insert_eq. intros [= <-]. by rewrite lookup_empty in Hl.
    + rewrite lookup_insert_ne by done. eauto.
  - destruct (handlers h !! c0) as [hd|] eqn:Hh; [|done]. destruct (h_live hd); [|done].
    destruct (decide (c0 ∈ _)); [done|]. intros [= <- <-]. simpl in *.
    destruct (decide (h_socket hd = socket)) as [<-|Hne].
    + rewrite lookup_insert_eq. intros [= <-].
      apply switch_on_type_clients, lookup_register in Hl as [Hl|[_ ->]].
      * unfold room in Hl. destruct (sockets h !! h_socket hd) eqn:Hs0; simpl in Hl.
        -- eauto.
        -- by rewrite lookup_empty in Hl.
      * unfold room_of. simpl. by rewrite lookup_insert_eq.
    + rewrite lookup_insert_ne by done. eauto.
  - destruct (handlers h !! c0) as [hd|] eqn:Hh; [|done]. destruct (h_live hd); [|done].
    intros [= <- <-]. simpl in *. eauto.
Qed.

Lemma step_with_out_same_room h e h' out o :
  rooms_hold_own_conns h →
  step_with iter h e = Some (h', out) →
  o ∈ out →
  ∃ socket, room_of h' (sender_of e) = Some socket ∧
            room_of h' (receiver o) = Some socket.
Proof.
  intros Hinv Hstep Ho. pose proof Hstep as Hstep0.
  destruct e as [c0 s|c0 [f|] fails]; simpl in Hstep.
  - destruct (decide (c0 ∈ _)); [done|]. injection Hstep as <- <-.
    by apply elem_of_nil in Ho.
  - destruct (handlers h !! c0) as [hd|] eqn:Hh; [|done].
    destruct (h_live hd) eqn:Hlive; [|done].
    destruct (decide (c0 ∈ _)); [done|].
    injection Hstep as _ <-. exists (h_socket hd). split.
    { eapply step_with_room_of; [exact Hstep0|]. unfold room_of. simpl. by rewrite Hh. }
    apply switch_on_type_out in Ho as [[m ->]|(user & client & Hl & _ & ->)].
    { eapply step_with_room_of; [exact Hstep0|]. unfold room_of. simpl. by rewrite Hh. }
    simpl. apply lookup_register in Hl as [Hl|[_ ->]].
    + eapply step_with_room_of; [exact Hstep0|]. by eapply rooms_hold_own_conns_room.
    + eapply step_with_room_of; [exact Hstep0|]. unfold room_of. simpl. by rewrite Hh.
  - destruct (handlers h !! c0) as [hd|]; [|done]. destruct (h_live hd); [|done].
    injection Hstep as <- <-. by apply elem_of_nil in Ho.
Qed.

Lemma run_with_out_same_room evs h h' outs c o :
  rooms_hold_own_conns h →
  run_with iter evs h = Some (h', outs) →
  (c, o) ∈ outs →
  ∃ socket, room_of h' c = Some socket ∧ room_of h' (receiver o) = Some socket.
Proof.
  revert h outs. induction evs as [|e evs IH]; intros h outs Hinv; cbn [run_with].
  - intros [= <- <-] Hin. by apply elem_of_nil in Hin.
  - destruct (step_with iter h e) as [[h1 out]|] eqn:Hstep; [|done].
    destruct (run_with iter evs h1) as [[h2 outs2]|] eqn:Hrun; [|done].
    intros [= <- <-] Hin. apply elem_of_app in Hin as [Hin|Hin].
    + apply list_elem_of_fmap in Hin as (o' & [= -> ->] & Hin).
      destruct (step_with_out_same_room _ _ _ _ _ Hinv Hstep Hin) as (socket & Hs & Hr).
      assert (Hmono : ∀ d k, room_of h1 d = Some k → room_of h2 d = Some k).
      { clear -Hrun. revert h1 outs2 Hrun. induction evs as [|e' evs IH']; intros h1 outs2.
        - cbn [run_with]. by intros [= <- <-].
        - cbn [run_with].
          destruct (step_with iter h1 e') as [[h3 out3]|] eqn:Hstep'; [|done].
          destruct (run_with iter evs h3) as [[h4 outs4]|] eqn:Hrun'; [|done].
          intros [= <- <-] d k Hd. eapply IH'; [done|].
          by eapply step_with_room_of. }
      exists socket. split; by apply Hmono.
    + eapply IH; [|done..]. by eapply step_with_rooms_hold_own_conns.
Qed.

End any_handler.

(** X24: rooms are isolated under the second [wshandler] too. In every
    run of the hub with the loop body of lines 220-251, a write made by the
    handler of a connection accepted under key A goes to a connection
    accepted under key B only if A = B. *)
Theorem unguarded_room_isolation evs h outs c o A B :
  run_with wshandler_iter_unguarded evs init = Some (h, outs) →
  (c, o) ∈ outs →
  room_of h c = Some A →
  room_of h (receiver o) = Some B →
  A = B.
Proof.
  intros Hrun Hin HA HB.
  destruct (run_with_out_same_room (λ _ _, false) _ _ _ _ _ _
              init_rooms_hold_own_conns Hrun Hin) as (socket & Hs & Hr).
  congruence.
Qed.

Lemma unguarded_room_isolation_witness :
  let evs := two_joined ++ [Read 1 (Some (frame "offer" "a" None)) fine] in
  let o := Forward "a" 1 (mkMessage "offer" "a" "" "" "") in
  ∃ h outs, run_with wshandler_iter_unguarded evs init = Some (h, outs) ∧
            (1, o) ∈ outs ∧ room_of h 1 = Some "r" ∧ "r" = "r".
Proof.
  intros evs o.
  destruct (run_with wshandler_iter_unguarded evs init) as [[h outs]|] eqn:Hrun;
    [|by vm_compute in Hrun].
  exists h, outs.
  assert (Hin : (1, o) ∈ outs).
  { assert (Ho : snd <$> run_with wshandler_iter_unguarded evs init
                 = Some [(1, Reply 1 (mkMessage "session_joined" "a" "" "" ""));
                         (2, Reply 2 (mkMessage "session_joined" "b" "" "" ""));
                         (1, o);
                         (1, Forward "b" 2 (mkMessage "offer" "a" "" "" ""))])
      by (vm_compute; reflexivity).
    rewrite Hrun in Ho. injection Ho as ->.
    do 2 apply list_elem_of_further. apply list_elem_of_here. }
  assert (HA : room_of h 1 = Some "r").
  { assert (Hr : (λ r, room_of r.1 1) <$> run_with wshandler_iter_unguarded evs init
                 = Some (Some "r")) by (vm_compute; reflexivity).
    rewrite Hrun in Hr. by injection Hr. }
  split; [reflexivity|]. split; [exact Hin|]. split; [exact HA|].
  exact (unguarded_room_isolation evs h outs 1 o "r" "r" Hrun Hin HA HA).
Defined.

End HubsFacts.

(** ** Part X: admissions that interleave *)

Module RaceFacts.
Import Relay Race.


(** [make] returns a map object that nothing refers to yet, in every state
    of every schedule. *)
Lemma step_allocated h e h' out : allocated h → step h e = Some (h', out) → allocated h'.
Proof.
  intros (Hm & Hs & Hw). destruct e as [c socket|c|c r fails]; cbn [step].
  - destruct (decide (c ∈ dom (workers h))); [done|].
    intros [= <- _]. split_and!; cbn; [done..|].
    intros c' w l. destruct (decide (c' = c)) as [->|Hne].
    + rewrite lookup_insert_eq. by intros [= <-].
    + rewrite lookup_insert_ne by done. apply Hw.
  - destruct (workers h !! c) as [w|] eqn:Hc; [|done].
    assert (Hfresh : maps h !! make h = None).
    { destruct (maps h !! make h) eqn:Hl; [|done].
      assert (make h < size (maps h)) by (apply Hm; eauto). unfold make in *. lia. }
    destruct (w_pc w) as [| | |clients|] eqn:Hpc; try done.
    + assert (Hkeep : ∀ pc, (∀ l, pc ≠ InLoop (Some l)) → allocated (set_pc c w pc h)).
      { intros pc Hpc'. split_and!; cbn; [done..|].
        intros c' w' l. destruct (decide (c' = c)) as [->|Hne].
        - rewrite lookup_insert_eq. intros [= <-]. cbn. intros ->. by destruct (Hpc' l).
        - rewrite lookup_insert_ne by done. apply Hw. }
      destruct (sockets h !! w_socket w); intros [= <- _]; by apply Hkeep.
    + cbv zeta. intros Hx. injection Hx as <- Hout. unfold allocated. cbn.
      rewrite map_size_insert_None by done. fold (make h). split_and!.
      * intros l. destruct (decide (l = make h)) as [->|Hne].
        -- rewrite lookup_insert_eq. split; [lia|eauto].
        -- rewrite lookup_insert_ne by done. rewrite Hm. unfold make in *. lia.
      * intros socket l. destruct (decide (socket = w_socket w)) as [->|Hne].
        -- rewrite lookup_insert_eq. intros [= <-]. lia.
        -- rewrite lookup_insert_ne by done. intros Hl%Hs. unfold make. lia.
      * intros c' w' l. destruct (decide (c' = c)) as [->|Hne].
        -- rewrite lookup_insert_eq. by intros [= <-].
        -- rewrite lookup_insert_ne by done. intros Hl Hpc'.
           pose proof (Hw c' w' l Hl Hpc'). unfold make. lia.
    + intros [= <- _]. split_and!; cbn; [done..|].
      intros c' w' l. destruct (decide (c' = c)) as [->|Hne].
      * rewrite lookup_insert_eq. intros [= <-]. cbn. intros [= Hl]. by eapply Hs.
      * rewrite lookup_insert_ne by done. apply Hw.
  - destruct (workers h !! c) as [w|] eqn:Hc; [|done].
    destruct (w_pc w) as [| | |clients|] eqn:Hpc; try done.
    destruct clients as [l|], r as [f|]; try done.
    + destruct (decide (c ∈ closed h)); [done|]. cbv zeta.
      intros Hx. injection Hx as <- Hout.
      assert (Hl : is_Some (maps h !! l)) by (apply Hm; by eapply Hw).
      unfold allocated. cbn. rewrite map_size_insert_Some by done. split_and!.
      * intros l'. destruct (decide (l' = l)) as [->|Hne].
        -- rewrite lookup_insert_eq. split; [intros _; by apply Hm|eauto].
        -- by rewrite lookup_insert_ne.
      * done.
      * intros c' w' l'. destruct (decide (c' = c)) as [->|Hne].
        -- rewrite lookup_insert_eq. intros [= <-]. cbn. intros [= <-]. by eapply Hw.
        -- rewrite lookup_insert_ne by done. apply Hw.
    + intros Hx. injection Hx as <- Hout. split_and!; cbn; [done..|].
      intros c' w' l'. destruct (decide (c' = c)) as [->|Hne].
      * rewrite lookup_insert_eq. by intros [= <-].
      * rewrite lookup_insert_ne by done. apply Hw.
    + intros Hx. injection Hx as <- Hout. split_and!; cbn; [done..|].
      intros c' w' l'. destruct (decide (c' = c)) as [->|Hne].
      * rewrite lookup_insert_eq. by intros [= <-].
      * rewrite lookup_insert_ne by done. apply Hw.
Qed.

Lemma make_is_new evs h outs :
  run evs init = Some (h, outs) →
  maps h !! make h = None ∧
  (∀ socket, sockets h !! socket ≠ Some (make h)) ∧
  (∀ c w, workers h !! c = Some w → w_pc w ≠ InLoop (Some (make h))).
Proof.
  intros Hrun. assert (Ha : allocated h).
  { assert (Hi : allocated init).
    { split_and!; cbn.
      - intros l. rewrite lookup_empty, map_size_empty. split; [by intros []|lia].
      - intros socket l. by rewrite lookup_empty.
      - intros c w l. by rewrite lookup_empty. }
    revert Hi Hrun. generalize init. revert h outs.
    induction evs as [|e evs IH]; intros h outs h0 Hi; cbn.
    - by intros [= <- _].
    - destruct (step h0 e) as [[h1 out]|] eqn:Hstep; [|done].
      destruct (run evs h1) as [[h2 outs2]|] eqn:Hrun; [|done].
      intros [= <- _]. eapply IH; [|exact Hrun]. by eapply step_allocated. }
  destruct Ha as (Hm & Hs & Hw). unfold make. split_and!.
  - destruct (maps h !! size (maps h)) eqn:Hl; [|done].
    assert (size (maps h) < size (maps h)) by (apply Hm; eauto). lia.
  - intros socket Hl%Hs. lia.
  - intros c w Hl Hpc. pose proof (Hw c w _ Hl Hpc). lia.
Qed.







(** The same requests with the admissions one after the other: both
    handlers hold the map of the directory, and both participants are
    members. *)
Lemma one_by_one_members :
  (λ h, (members h "r", sockets h !! "r",
         w_pc <$> workers h !! 1, w_pc <$> workers h !! 2))
    <$> turns one_by_one init
  = Some ({["a"; "b"]}, Some 0, Some (InLoop (Some 0)), Some (InLoop (Some 0))).
Proof. vm_compute. reflexivity. Qed.


End RaceFacts.
